(** * Physika: particle bookkeeping of the MPM solid driver

    A shallow embedding of [MPMSolidBase<Scalar,Dim>]
    (Physika_Src/Physika_Dynamics/MPM/mpm_solid_base.cpp) and the
    properties of its particle container: the parallel per-particle
    vectors, the interpolation cache sizing, the index checks of the
    accessors and the boundary marks.

    The object owns its particles through raw pointers, so the embedding
    carries the free store explicitly: a pointer is [option loc] (NULL is
    [None]), the store maps the live addresses to particle values, [new]
    picks an address that is not live and [delete] removes one.  What C++
    leaves undefined (reading through a null or released pointer, erasing
    or indexing past the end of a vector, deleting twice) is the outcome
    [Undefined]; [std::exit] is [Exited]; a failed [PHYSIKA_ASSERT] is
    [AssertFailed]. *)

From Stdlib Require Import Floats DecimalString.
From stdpp Require Import gmap strings list fin_maps.

(** ** Outcomes of a member function *)

Inductive result (A : Type) : Type :=
  | Ret (a : A)                  (* the call returns *)
  | Exited (err : list string)   (* std::exit(EXIT_FAILURE); [err] is what std::cerr received *)
  | AssertFailed                 (* PHYSIKA_ASSERT on a false condition *)
  | Undefined.                   (* undefined behaviour *)
Arguments Ret {A} a.
Arguments Exited {A} err.
Arguments AssertFailed {A}.
Arguments Undefined {A}.

#[global] Instance result_ret : MRet result := λ A a, Ret a.
#[global] Instance result_bind : MBind result := λ A B f m,
  match m with
  | Ret a => f a
  | Exited e => Exited e
  | AssertFailed => AssertFailed
  | Undefined => Undefined
  end.

Definition returns {A} (m : result A) : Prop := ∃ a, m = Ret a.

(** ** The template parameter [Scalar] *)

(** The operations the driver uses on [Scalar] ([float] or [double]):
    the literal 0, [+] and [*] (inside [normSquared]), [<], [sqrt] and
    [std::numeric_limits<Scalar>::max()]. *)
Class ScalarOps (Scalar : Type) : Type := {
  s_zero : Scalar;
  s_add : Scalar → Scalar → Scalar;
  s_mul : Scalar → Scalar → Scalar;
  s_lt : Scalar → Scalar → bool;
  s_sqrt : Scalar → Scalar;
  s_max : Scalar
}.

(** [double]: IEEE 754 binary64, the kernel's primitive floats. *)
#[global] Instance double_ops : ScalarOps float := {|
  s_zero := 0%float;
  s_add := PrimFloat.add;
  s_mul := PrimFloat.mul;
  s_lt := PrimFloat.ltb;
  s_sqrt := PrimFloat.sqrt;
  s_max := 0x1.fffffffffffffp+1023%float
|}.

(** ** Unsigned 32-bit arithmetic ([unsigned int]) *)

Definition uint_modulus : N := 2 ^ 32.
Definition uint_wrap (x : N) : N := x mod uint_modulus.
Definition uint_add (a b : N) : N := uint_wrap (a + b).
Definition uint_mul (a b : N) : N := uint_wrap (a * b).

(** ** std::vector operations, with their preconditions written out *)

(** Sizes and indices are [nat]: the code compares them and uses them as
    offsets, it does no arithmetic on them. *)

(** [v[i]] as an rvalue. *)
Definition vector_at {A} (i : nat) (v : list A) : result A :=
  match v !! i with
  | Some x => Ret x
  | None => Undefined
  end.

(** [v[i] = x]. *)
Definition vector_set {A} (i : nat) (x : A) (v : list A) : result (list A) :=
  if decide (i < length v) then Ret (<[i:=x]> v) else Undefined.

(** [v.erase(v.begin() + i)]. *)
Definition vector_erase {A} (i : nat) (v : list A) : result (list A) :=
  if decide (i < length v) then Ret (delete i v) else Undefined.

(** [v.resize(n, x)]: the first [n] elements are kept as they are, and
    only the elements past the old size are copies of [x]. *)
Definition vector_resize {A} (n : nat) (x : A) (v : list A) : list A :=
  take n v ++ replicate (n - length v) x.

(** ** Diagnostics written to std::cerr *)

Definition newline : string := String (Ascii.ascii_of_nat 10) EmptyString.

Definition warn_out_of_range : string :=
  "Warning: MPM particle index out of range, operation ignored!" +:+ newline.
Definition error_out_of_range : string :=
  "Error: MPM particle index out of range, abort program!" +:+ newline.
Definition warn_null (i : nat) : string :=
  "Warning: pointer to particle " +:+ NilZero.string_of_uint (Nat.to_uint i)
    +:+ " is NULL, ignored!" +:+ newline.

(** Addresses in the free store. *)
Definition loc : Set := positive.

Section MPMSolidBase.
Context {Scalar : Type} `{!ScalarOps Scalar}.
(** The template parameter [Dim] (the class is instantiated at 2 and 3). *)
Variable Dim : nat.

(** *** Collaborators declared outside mpm_solid_base.cpp *)

(** Modelled from the spec: [Vector<Scalar,Dim>] is missing from the
    sources; a vector is the list of its components and [normSquared]
    the sum of their squares, added left to right. *)
Definition Vector : Type := list Scalar.
Definition normSquared (v : Vector) : Scalar :=
  match v with
  | [] => s_zero
  | x :: xs => foldl (λ acc y, s_add acc (s_mul y y)) (s_mul x x) xs
  end.

(** Modelled from the spec: [SolidParticle<Scalar,Dim>] is missing from
    the sources; a particle "owns physical state (position, velocity,
    mass, volume, stress)" and "supports a deep-copy operation". *)
Record SolidParticle : Type := mkSolidParticle {
  position : Vector;
  velocity : Vector;
  mass : Scalar;
  volume : Scalar;
  stress : list Vector
}.

(** Modelled from the spec: the interpolation kernel is missing from the
    sources; it "exposes a support radius (in grid cells)",
    [supportRadius() -> integer], here an [unsigned int]. *)
Record GridWeightFunction : Type := mkGridWeightFunction {
  supportRadius : N
}.

(** Modelled from the spec: [MPMInternal::NodeIndexWeightGradientPair]
    is missing from the sources; a cache entry is a "(node-index,
    weight, weight-gradient)" tuple, and a default-constructed one holds
    zeros. *)
Record NodeIndexWeightGradientPair : Type := mkPair {
  node_idx_ : list N;
  weight_value_ : Scalar;
  gradient_value_ : Vector
}.
Definition default_pair : NodeIndexWeightGradientPair :=
  {| node_idx_ := replicate Dim 0%N;
     weight_value_ := s_zero;
     gradient_value_ := replicate Dim s_zero |}.

(** *** The free store *)

Abbreviation store := (gmap loc SolidParticle).

(** [*p] for a pointer [p]. *)
Definition deref (h : store) (p : option loc) : result SolidParticle :=
  match p with
  | None => Undefined
  | Some l =>
      match h !! l with
      | Some v => Ret v
      | None => Undefined
      end
  end.

(** [delete p]: nothing for NULL, undefined for a pointer that is not
    live (released before). *)
Definition delete_ptr (p : option loc) (h : store) : result store :=
  match p with
  | None => Ret h
  | Some l =>
      match h !! l with
      | Some _ => Ret (delete l h)
      | None => Undefined
      end
  end.

(** Modelled from the spec: [SolidParticle::clone] is missing from the
    sources; it is the deep copy, a new object with the same fields at an
    address that is not live.  As with [operator new], that address may
    be one that was released before: a slot that still holds a released
    address can then point to the new object.  Validity of a pointer is
    its address being live, so the embedding follows the program as long
    as no call is made on a container with such a slot (see
    [call_in_contract]). *)
Definition clone (p : loc) (h : store) : result (loc * store) :=
  match h !! p with
  | None => Undefined
  | Some v => let l := fresh (dom h) in Ret (l, <[l:=v]> h)
  end.

(** *** The object and its surroundings *)

(** The data members of [MPMSolidBase] and of its base [MPMBase] that
    the file uses, together with the free store and std::cerr. *)
Record State : Type := mkState {
  heap : store;
  cerr : list string;
  particles_ : list (option loc);                 (* std::vector<SolidParticle*> *)
  is_bc_particle_ : list N;                       (* std::vector<unsigned char> *)
  particle_initial_volume_ : list Scalar;         (* std::vector<Scalar> *)
  particle_grid_weight_and_gradient_ : list (list NodeIndexWeightGradientPair);
  particle_grid_pair_num_ : list N;               (* std::vector<unsigned int> *)
  weight_function_ : option GridWeightFunction    (* GridWeightFunction* *)
}.

Definition log (msg : string) (st : State) : State :=
  {| heap := heap st; cerr := cerr st ++ [msg];
     particles_ := particles_ st;
     is_bc_particle_ := is_bc_particle_ st;
     particle_initial_volume_ := particle_initial_volume_ st;
     particle_grid_weight_and_gradient_ := particle_grid_weight_and_gradient_ st;
     particle_grid_pair_num_ := particle_grid_pair_num_ st;
     weight_function_ := weight_function_ st |}.

(** *** Member functions *)

Definition particleNum (st : State) : nat := length (particles_ st).

(** The loop [max_num = 1; for (i < Dim) max_num *= r*2+1]. *)
Definition max_num_of (r : N) : N :=
  Nat.iter Dim (λ max_num, uint_mul max_num (uint_add (uint_mul r 2) 1)) 1%N.

Definition max_num_weight_and_gradient_vec (r : N) : list NodeIndexWeightGradientPair :=
  replicate (N.to_nat (max_num_of r)) default_pair.

Definition appendSpaceForWeightAndGradient (st : State) : result State :=
  match weight_function_ st with
  | None => Undefined
  | Some w =>
      Ret {| heap := heap st; cerr := cerr st;
             particles_ := particles_ st;
             is_bc_particle_ := is_bc_particle_ st;
             particle_initial_volume_ := particle_initial_volume_ st;
             particle_grid_weight_and_gradient_ :=
               particle_grid_weight_and_gradient_ st
                 ++ [max_num_weight_and_gradient_vec (supportRadius w)];
             particle_grid_pair_num_ := particle_grid_pair_num_ st ++ [0%N];
             weight_function_ := weight_function_ st |}
  end.

(** [PHYSIKA_ASSERT] is a macro defined outside these sources; when its
    condition is false the call does not go on, which is the outcome
    [AssertFailed]. *)
Definition allocateSpaceForWeightAndGradient (st : State) : result State :=
  match weight_function_ st with
  | None => AssertFailed
  | Some w =>
      Ret {| heap := heap st; cerr := cerr st;
             particles_ := particles_ st;
             is_bc_particle_ := is_bc_particle_ st;
             particle_initial_volume_ := particle_initial_volume_ st;
             particle_grid_weight_and_gradient_ :=
               vector_resize (length (particles_ st))
                 (max_num_weight_and_gradient_vec (supportRadius w))
                 (particle_grid_weight_and_gradient_ st);
             particle_grid_pair_num_ :=
               vector_resize (length (particles_ st)) 0%N (particle_grid_pair_num_ st);
             weight_function_ := weight_function_ st |}
  end.

Definition addParticle (particle : loc) (st : State) : result State :=
  '(new_particle, h) ← clone particle (heap st);
  v ← deref h (Some new_particle);
  appendSpaceForWeightAndGradient
    {| heap := h; cerr := cerr st;
       particles_ := particles_ st ++ [Some new_particle];
       is_bc_particle_ := is_bc_particle_ st ++ [0%N];
       particle_initial_volume_ := particle_initial_volume_ st ++ [volume v];
       particle_grid_weight_and_gradient_ := particle_grid_weight_and_gradient_ st;
       particle_grid_pair_num_ := particle_grid_pair_num_ st;
       weight_function_ := weight_function_ st |}.

Definition removeParticle (particle_idx : nat) (st : State) : result State :=
  if decide (length (particles_ st) ≤ particle_idx) then
    Ret (log warn_out_of_range st)
  else
    p ← vector_at particle_idx (particles_ st);
    h ← delete_ptr p (heap st);
    ps ← vector_erase particle_idx (particles_ st);
    vols ← vector_erase particle_idx (particle_initial_volume_ st);
    bcs ← vector_erase particle_idx (is_bc_particle_ st);
    wgs ← vector_erase particle_idx (particle_grid_weight_and_gradient_ st);
    nums ← vector_erase particle_idx (particle_grid_pair_num_ st);
    Ret {| heap := h; cerr := cerr st;
           particles_ := ps;
           is_bc_particle_ := bcs;
           particle_initial_volume_ := vols;
           particle_grid_weight_and_gradient_ := wgs;
           particle_grid_pair_num_ := nums;
           weight_function_ := weight_function_ st |}.

(** The loop [if (particles_[i]) delete particles_[i]] of [setParticles]
    and of the destructor. *)
Fixpoint release (ps : list (option loc)) (h : store) : result store :=
  match ps with
  | [] => Ret h
  | p :: ps' => h' ← delete_ptr p h; release ps' h'
  end.

(** The loop of [setParticles] from index [i] on; [rest] is what remains
    of the argument. *)
Fixpoint setParticles_loop (i : nat) (rest : list (option loc)) (st : State)
    : result State :=
  match rest with
  | [] => Ret st
  | None :: rest' => setParticles_loop (S i) rest' (log (warn_null i) st)
  | Some p :: rest' =>
      '(l, h) ← clone p (heap st);
      ps ← vector_set i (Some l) (particles_ st);
      bcs ← vector_set i 0%N (is_bc_particle_ st);
      v ← deref h (Some l);
      vols ← vector_set i (volume v) (particle_initial_volume_ st);
      setParticles_loop (S i) rest'
        {| heap := h; cerr := cerr st;
           particles_ := ps;
           is_bc_particle_ := bcs;
           particle_initial_volume_ := vols;
           particle_grid_weight_and_gradient_ := particle_grid_weight_and_gradient_ st;
           particle_grid_pair_num_ := particle_grid_pair_num_ st;
           weight_function_ := weight_function_ st |}
  end.

Definition setParticles (particles : list (option loc)) (st : State) : result State :=
  h ← release (particles_ st) (heap st);
  st' ← allocateSpaceForWeightAndGradient
    {| heap := h; cerr := cerr st;
       particles_ := vector_resize (length particles) None (particles_ st);
       is_bc_particle_ := vector_resize (length particles) 0%N (is_bc_particle_ st);
       particle_initial_volume_ :=
         vector_resize (length particles) s_zero (particle_initial_volume_ st);
       particle_grid_weight_and_gradient_ := particle_grid_weight_and_gradient_ st;
       particle_grid_pair_num_ := particle_grid_pair_num_ st;
       weight_function_ := weight_function_ st |};
  setParticles_loop 0 particles st'.

(** The destructor. *)
Definition destroy (st : State) : result store := release (particles_ st) (heap st).

(** [particle(idx) const]. *)
Definition particle_const (particle_idx : nat) (st : State) : result loc :=
  if decide (length (particles_ st) ≤ particle_idx) then
    Exited (cerr st ++ [error_out_of_range])
  else
    p ← vector_at particle_idx (particles_ st);
    _ ← deref (heap st) p;
    match p with
    | Some l => Ret l
    | None => Undefined
    end.

(** [particle(idx)], the non-const overload.  The reference returned is
    the address of the particle. *)
Definition particle (particle_idx : nat) (st : State) : result loc :=
  if decide (length (particles_ st) ≤ particle_idx) then
    Exited (cerr st ++ [error_out_of_range])
  else
    p ← vector_at particle_idx (particles_ st);
    _ ← deref (heap st) p;
    match p with
    | Some l => Ret l
    | None => Undefined
    end.

Definition allParticles (st : State) : list (option loc) := particles_ st.

Definition addBCParticle (particle_idx : nat) (st : State) : result State :=
  if decide (length (particles_ st) ≤ particle_idx) then
    Ret (log warn_out_of_range st)
  else
    bcs ← vector_set particle_idx 1%N (is_bc_particle_ st);
    Ret {| heap := heap st; cerr := cerr st;
           particles_ := particles_ st;
           is_bc_particle_ := bcs;
           particle_initial_volume_ := particle_initial_volume_ st;
           particle_grid_weight_and_gradient_ := particle_grid_weight_and_gradient_ st;
           particle_grid_pair_num_ := particle_grid_pair_num_ st;
           weight_function_ := weight_function_ st |}.

Fixpoint addBCParticles (particle_idx : list nat) (st : State) : result State :=
  match particle_idx with
  | [] => Ret st
  | i :: rest => st' ← addBCParticle i st; addBCParticles rest st'
  end.

(** The loop of [maxParticleVelocityNorm] over the particles left. *)
Fixpoint min_vel_loop (h : store) (ps : list (option loc)) (min_vel : Scalar)
    : result Scalar :=
  match ps with
  | [] => Ret min_vel
  | p :: ps' =>
      v ← deref h p;
      let norm_sqr := normSquared (velocity v) in
      min_vel_loop h ps' (if s_lt norm_sqr min_vel then norm_sqr else min_vel)
  end.

Definition maxParticleVelocityNorm (st : State) : result Scalar :=
  match particles_ st with
  | [] => Ret s_zero
  | _ =>
      min_vel ← min_vel_loop (heap st) (particles_ st) s_max;
      Ret (s_sqrt min_vel)
  end.

(** *** Vocabulary of the properties *)

(** The parallel sequences have one length. *)
Definition aligned (st : State) : Prop :=
  length (is_bc_particle_ st) = length (particles_ st) ∧
  length (particle_initial_volume_ st) = length (particles_ st) ∧
  length (particle_grid_weight_and_gradient_ st) = length (particles_ st) ∧
  length (particle_grid_pair_num_ st) = length (particles_ st).

(** A pointer is NULL or points to a live object. *)
Definition live (h : store) (p : option loc) : Prop :=
  match p with
  | Some l => is_Some (h !! l)
  | None => True
  end.

(** The container owns what it points to: every pointer that is not NULL
    is live, and no two slots hold the same address. *)
Definition owns (st : State) : Prop :=
  Forall (live (heap st)) (particles_ st) ∧ NoDup (omap id (particles_ st)).

Definition well_formed (st : State) : Prop := aligned st ∧ owns st.

(** A container that holds nothing (what the constructors without a
    particle list leave). *)
Definition empty_container (st : State) : Prop :=
  particles_ st = [] ∧ is_bc_particle_ st = [] ∧ particle_initial_volume_ st = [] ∧
  particle_grid_weight_and_gradient_ st = [] ∧ particle_grid_pair_num_ st = [].

(** What the container keeps for one particle, read across the parallel
    sequences at one index. *)
Record Entry : Type := mkEntry {
  e_particle : option loc;
  e_is_bc : N;
  e_initial_volume : Scalar;
  e_weight_and_gradient : list NodeIndexWeightGradientPair;
  e_pair_num : N
}.

Fixpoint zip_entries (ps : list (option loc)) (bcs : list N) (vols : list Scalar)
    (wgs : list (list NodeIndexWeightGradientPair)) (nums : list N) : list Entry :=
  match ps, bcs, vols, wgs, nums with
  | p :: ps', b :: bcs', v :: vols', w :: wgs', n :: nums' =>
      mkEntry p b v w n :: zip_entries ps' bcs' vols' wgs' nums'
  | _, _, _, _, _ => []
  end.

Definition entries (st : State) : list Entry :=
  zip_entries (particles_ st) (is_bc_particle_ st) (particle_initial_volume_ st)
    (particle_grid_weight_and_gradient_ st) (particle_grid_pair_num_ st).

(** Sequences of [addParticle] and [removeParticle] calls. *)
Inductive operation : Type :=
  | Add (particle : loc)
  | RemoveAt (particle_idx : nat).

Definition apply_op (o : operation) (st : State) : result State :=
  match o with
  | Add p => addParticle p st
  | RemoveAt i => removeParticle i st
  end.

Fixpoint run (ops : list operation) (st : State) : result State :=
  match ops with
  | [] => Ret st
  | o :: ops' => st' ← apply_op o st; run ops' st'
  end.

(** The same operations on whole records: an insertion appends one
    record, a removal erases the record at the index (and nothing when the
    index is past the end). *)
Inductive record_step : operation → list Entry → list Entry → Prop :=
  | record_add p es e : record_step (Add p) es (es ++ [e])
  | record_remove i es : record_step (RemoveAt i) es (delete i es).





(** No scalar of the list is above [numeric_limits<Scalar>::max()]. *)
Definition bounded_by_max (ns : list Scalar) : Prop :=
  ∀ a, a ∈ ns → s_lt a s_max = true ∨ a = s_max.

(** The scalar [v] is the speed of the velocity [vel] exactly: squaring
    [v] gives the squared norm as [normSquared] computes it, and the
    square root gives [v] back (nothing is rounded, nothing underflows to
    0 or overflows to infinity). *)
Definition exact_speed (vel : Vector) (v : Scalar) : Prop :=
  normSquared vel = s_mul v v ∧ s_sqrt (s_mul v v) = v.

(** The warnings of the loop of [setParticles] from index [i] on. *)
Fixpoint null_warnings (i : nat) (rest : list (option loc)) : list string :=
  match rest with
  | [] => []
  | None :: rest' => warn_null i :: null_warnings (S i) rest'
  | Some _ :: rest' => null_warnings (S i) rest'
  end.

(** Index [j] is assigned by the loop of [setParticles] from index [i]
    on: the argument holds a pointer that is not NULL there. *)
Definition written (i : nat) (rest : list (option loc)) (j : nat) : Prop :=
  i ≤ j ∧ ∃ q, rest !! (j - i) = Some (Some q).

(** The flags of the first [n] particles are 1 exactly at the indices of
    the list. *)
Definition marked_exactly (flags : list N) (n : nat) (idxs : list nat) : Prop :=
  ∀ j, j < n → (flags !! j = Some 1%N ↔ j ∈ idxs).

(** Calls of [addBCParticle], one per index of the list, in order. *)
Fixpoint addBCParticle_each (idxs : list nat) (st : State) : result State :=
  match idxs with
  | [] => Ret st
  | i :: rest => st' ← addBCParticle i st; addBCParticle_each rest st'
  end.

(** *** Vocabulary of the further properties *)

(** The constructor that takes a particle list: the base-class constructor
    (outside these sources) leaves [base], then the body calls
    [setParticles]. *)
Definition MPMSolidBase_from_particles (particles : list (option loc)) (base : State)
    : result State :=
  setParticles particles base.

(** Every cache slot has the size the kernel [w] asks for and every
    valid-entry counter is 0. *)
Definition cache_ready (w : GridWeightFunction) (st : State) : Prop :=
  weight_function_ st = Some w ∧
  Forall (λ slot, slot = max_num_weight_and_gradient_vec (supportRadius w))
    (particle_grid_weight_and_gradient_ st) ∧
  Forall (λ n, n = 0%N) (particle_grid_pair_num_ st).

(** A slot points to a live particle. *)
Definition holds_particle (h : store) (p : option loc) : Prop :=
  ∃ l, p = Some l ∧ is_Some (h !! l).

(** Relative to the store [h0] a run started with, the store of [st]
    differs only by the particles the container owns: their addresses
    were free in [h0], and every other address holds what it held. *)
Definition only_owned_added (h0 : store) (st : State) : Prop :=
  (∀ l, Some l ∈ particles_ st → h0 !! l = None) ∧
  (∀ l, Some l ∉ particles_ st → heap st !! l = h0 !! l).

(** Calls of the member functions that change the container. *)
Inductive call : Type :=
  | CallAddParticle (particle : loc)
  | CallRemoveParticle (particle_idx : nat)
  | CallSetParticles (particles : list (option loc))
  | CallAddBCParticle (particle_idx : nat)
  | CallAddBCParticles (particle_idx : list nat).

Definition apply_call (c : call) (st : State) : result State :=
  match c with
  | CallAddParticle p => addParticle p st
  | CallRemoveParticle i => removeParticle i st
  | CallSetParticles ps => setParticles ps st
  | CallAddBCParticle i => addBCParticle i st
  | CallAddBCParticles idxs => addBCParticles idxs st
  end.

Fixpoint run_calls (cs : list call) (st : State) : result State :=
  match cs with
  | [] => Ret st
  | c :: cs' => st' ← apply_call c st; run_calls cs' st'
  end.

(** What a caller has to respect for a call to be defined: the container
    owns its particles (no slot holds the address of a released object),
    [addParticle] is given a live particle, and [setParticles] is given
    pointers that are NULL or point to live particles the container does
    not own (the call releases the container's particles before it reads
    its argument). *)
Definition call_in_contract (c : call) (st : State) : Prop :=
  owns st ∧
  match c with
  | CallAddParticle p => is_Some (heap st !! p)
  | CallSetParticles ps =>
      ∀ q, Some q ∈ ps → is_Some (heap st !! q) ∧ Some q ∉ particles_ st
  | _ => True
  end.

(** Every call of a run is within the contract in the state it is made
    in. *)
Fixpoint run_in_contract (cs : list call) (st : State) : Prop :=
  match cs with
  | [] => True
  | c :: cs' =>
      call_in_contract c st ∧
      match apply_call c st with
      | Ret st' => run_in_contract cs' st'
      | _ => True
      end
  end.

End MPMSolidBase.

Abbreviation store := (gmap loc SolidParticle).

(** ** Concrete containers: [MPMSolidBase<double,2>] *)

Module Scenario.

Definition Dim : nat := 2.

Definition p_a : @SolidParticle float :=
  {| position := [0%float; 0%float]; velocity := [3%float; 4%float];
     mass := 1%float; volume := 0.5%float;
     stress := [[0%float; 0%float]; [0%float; 0%float]] |}.

Definition p_b : @SolidParticle float :=
  {| position := [1%float; 0%float]; velocity := [6%float; 8%float];
     mass := 2%float; volume := 0.25%float;
     stress := [[0%float; 0%float]; [0%float; 0%float]] |}.

(** A particle whose speed, 2^600, is a double but whose squared speed is
    not: it overflows to infinity. *)
Definition p_fast : @SolidParticle float :=
  {| position := [0%float; 0%float]; velocity := [0x1p+600%float; 0%float];
     mass := 1%float; volume := 1%float;
     stress := [[0%float; 0%float]; [0%float; 0%float]] |}.

(** A particle whose speed, 2^-600, is a double but whose squared speed
    is not: it underflows to 0. *)
Definition p_slow : @SolidParticle float :=
  {| position := [0%float; 0%float]; velocity := [0x1p-600%float; 0%float];
     mass := 1%float; volume := 1%float;
     stress := [[0%float; 0%float]; [0%float; 0%float]] |}.

(** Kernels of support radius 1 and 2. *)
Definition linear_kernel : GridWeightFunction := {| supportRadius := 1 |}.
Definition cubic_kernel : GridWeightFunction := {| supportRadius := 2 |}.

(** The caller's particles, at addresses 1 and 2. *)
Definition caller_store : gmap loc (@SolidParticle float) := <[2%positive := p_b]> {[1%positive := p_a]}.

(** A container as the constructors without a particle list leave it. *)
Definition new_container (w : option GridWeightFunction) (h : gmap loc (@SolidParticle float)) : @State float :=
  {| heap := h; cerr := [];
     particles_ := []; is_bc_particle_ := []; particle_initial_volume_ := [];
     particle_grid_weight_and_gradient_ := []; particle_grid_pair_num_ := [];
     weight_function_ := w |}.

(** The container after [addParticle(p_a)] under the kernel of radius 1:
    the clone lives at address 3. *)
Definition one_particle : @State float :=
  {| heap := <[3%positive := p_a]> caller_store; cerr := [];
     particles_ := [Some 3%positive]; is_bc_particle_ := [0%N];
     particle_initial_volume_ := [0.5%float];
     particle_grid_weight_and_gradient_ := [replicate 9 (default_pair Dim)];
     particle_grid_pair_num_ := [0%N];
     weight_function_ := Some linear_kernel |}.

(** A third particle, allocated by the caller after [one_particle] was
    built, at address 4. *)
Definition p_c : @SolidParticle float :=
  {| position := [2%float; 2%float]; velocity := [0%float; 1%float];
     mass := 3%float; volume := 2%float;
     stress := [[0%float; 0%float]; [0%float; 0%float]] |}.

Definition one_particle_later : @State float :=
  {| heap := <[4%positive := p_c]> (heap one_particle); cerr := [];
     particles_ := particles_ one_particle;
     is_bc_particle_ := is_bc_particle_ one_particle;
     particle_initial_volume_ := particle_initial_volume_ one_particle;
     particle_grid_weight_and_gradient_ := particle_grid_weight_and_gradient_ one_particle;
     particle_grid_pair_num_ := particle_grid_pair_num_ one_particle;
     weight_function_ := weight_function_ one_particle |}.

(** The container after [addParticle(p_a); addParticle(p_b)]. *)
Definition two_particles : @State float :=
  {| heap := <[4%positive := p_b]> (<[3%positive := p_a]> caller_store); cerr := [];
     particles_ := [Some 3%positive; Some 4%positive];
     is_bc_particle_ := [0%N; 0%N];
     particle_initial_volume_ := [0.5%float; 0.25%float];
     particle_grid_weight_and_gradient_ :=
       [replicate 9 (default_pair Dim); replicate 9 (default_pair Dim)];
     particle_grid_pair_num_ := [0%N; 0%N];
     weight_function_ := Some linear_kernel |}.

(** [two_particles] after [addBCParticle(0)]. *)
Definition marked_before : @State float :=
  {| heap := heap two_particles; cerr := [];
     particles_ := particles_ two_particles;
     is_bc_particle_ := [1%N; 0%N];
     particle_initial_volume_ := particle_initial_volume_ two_particles;
     particle_grid_weight_and_gradient_ := particle_grid_weight_and_gradient_ two_particles;
     particle_grid_pair_num_ := particle_grid_pair_num_ two_particles;
     weight_function_ := weight_function_ two_particles |}.

(** [one_particle] later in a simulation: the weights of its particle were
    computed (5 valid entries in its slot of 9), and the kernel was then
    replaced by one of support radius 2. *)
Definition stale_cache : @State float :=
  {| heap := heap one_particle; cerr := [];
     particles_ := particles_ one_particle;
     is_bc_particle_ := is_bc_particle_ one_particle;
     particle_initial_volume_ := particle_initial_volume_ one_particle;
     particle_grid_weight_and_gradient_ := particle_grid_weight_and_gradient_ one_particle;
     particle_grid_pair_num_ := [5%N];
     weight_function_ := Some cubic_kernel |}.

(** The container after [addParticle(p_fast)]; the caller's particle is at
    address 1, the clone at address 2. *)
Definition fast_container : @State float :=
  {| heap := <[2%positive := p_fast]> {[1%positive := p_fast]}; cerr := [];
     particles_ := [Some 2%positive];
     is_bc_particle_ := [0%N];
     particle_initial_volume_ := [1%float];
     particle_grid_weight_and_gradient_ := [replicate 9 (default_pair Dim)];
     particle_grid_pair_num_ := [0%N];
     weight_function_ := Some linear_kernel |}.

(** The container after [addParticle(p_slow)]; the caller's particle is at
    address 1, the clone at address 2. *)
Definition slow_container : @State float :=
  {| heap := <[2%positive := p_slow]> {[1%positive := p_slow]}; cerr := [];
     particles_ := [Some 2%positive];
     is_bc_particle_ := [0%N];
     particle_initial_volume_ := [1%float];
     particle_grid_weight_and_gradient_ := [replicate 9 (default_pair Dim)];
     particle_grid_pair_num_ := [0%N];
     weight_function_ := Some linear_kernel |}.

(** The container after [setParticles] with the one-element list [NULL]
    on a new container. *)
Definition hole_container : @State float :=
  {| heap := caller_store; cerr := [warn_null 0];
     particles_ := [None];
     is_bc_particle_ := [0%N];
     particle_initial_volume_ := [0%float];
     particle_grid_weight_and_gradient_ := [replicate 9 (default_pair Dim)];
     particle_grid_pair_num_ := [0%N];
     weight_function_ := Some linear_kernel |}.

End Scenario.

(** ** Properties *)

Section Properties.
Context {Scalar : Type} `{!ScalarOps Scalar}.
Variable Dim : nat.
Implicit Types (st : @State Scalar) (h : gmap loc (@SolidParticle Scalar))
  (p : option loc) (l : loc).

(** *** The result monad *)

Lemma bind_Ret {A B} (m : result A) (f : A → result B) (b : B) :
  m ≫= f = Ret b ↔ ∃ a, m = Ret a ∧ f a = Ret b.
Proof.
  split.
  - destruct m as [a| | |]; simpl; try discriminate. eauto.
  - intros (a & -> & Hf). exact Hf.
Qed.

Lemma vector_set_Ret {A} (i : nat) (x : A) (v v' : list A) :
  vector_set i x v = Ret v' ↔ i < length v ∧ v' = <[i:=x]> v.
Proof.
  unfold vector_set. case_decide; split; intros H'; try discriminate.
  - split; [done|congruence].
  - destruct H' as [_ ->]. done.
  - destruct H'; lia.
Qed.

Lemma delete_ptr_live h p : live h p → ∃ h', delete_ptr p h = Ret h'.
Proof.
  destruct p as [l|]; simpl; [|eauto].
  intros [v ->]. eauto.
Qed.

Lemma length_delete_lt {A} (i : nat) (v : list A) :
  i < length v → length (delete i v) = length v - 1.
Proof.
  intros Hi. pose proof (length_delete v i (lookup_lt_is_Some_2 v i Hi)). lia.
Qed.

Lemma list_delete_ge {A} (i : nat) (v : list A) :
  length v ≤ i → delete i v = v.
Proof.
  revert i. induction v as [|x v IH]; intros [|i] Hi; simpl in *; try done; [lia|].
  f_equal. apply IH. lia.
Qed.

(** *** [removeParticle] on an index past the end *)

Lemma removeParticle_ignored st (particle_idx : nat) :
  particleNum st ≤ particle_idx →
  removeParticle particle_idx st = Ret (log warn_out_of_range st).
Proof.
  intros Hidx. unfold removeParticle, particleNum in *.
  by rewrite decide_True.
Qed.

(** C6.  For every container and every index at or past [particleNum()],
    [removeParticle] returns (it does not exit), writes its warning to
    std::cerr, and changes nothing else: the particle count, the pointers,
    the boundary flags, the initial volumes, the cache slots with their
    counters, the kernel and the store are as before. *)
Theorem removeParticle_out_of_range st (particle_idx : nat) :
  particleNum st ≤ particle_idx →
  ∃ st', removeParticle particle_idx st = Ret st' ∧
    particleNum st' = particleNum st ∧
    particles_ st' = particles_ st ∧
    is_bc_particle_ st' = is_bc_particle_ st ∧
    particle_initial_volume_ st' = particle_initial_volume_ st ∧
    particle_grid_weight_and_gradient_ st' = particle_grid_weight_and_gradient_ st ∧
    particle_grid_pair_num_ st' = particle_grid_pair_num_ st ∧
    weight_function_ st' = weight_function_ st ∧
    heap st' = heap st ∧
    cerr st' = cerr st ++ [warn_out_of_range].
Proof.
  intros Hidx. exists (log warn_out_of_range st).
  split; [by apply removeParticle_ignored|]. done.
Qed.

(** *** The read accessor *)

(** C7 (as amended).  For every container and every index: when the
    index is below [particleNum()] and the slot holds the address [l] of a
    live particle, both overloads of [particle] return the reference [l];
    below [particleNum()] they return in no other case, and on a slot that
    is NULL (as [setParticles] leaves it at a NULL entry) they dereference
    the null pointer; when the index is at or past [particleNum()], both
    write the error to std::cerr and exit, so neither returns. *)
Theorem particle_checks_index st (particle_idx : nat) :
  (∀ l, particle_idx < particleNum st →
        particles_ st !! particle_idx = Some (Some l) →
        is_Some (heap st !! l) →
        particle particle_idx st = Ret l ∧ particle_const particle_idx st = Ret l) ∧
  (particle_idx < particleNum st →
        (returns (particle particle_idx st)
         ↔ ∃ l, particles_ st !! particle_idx = Some (Some l) ∧ is_Some (heap st !! l)) ∧
        (returns (particle_const particle_idx st)
         ↔ ∃ l, particles_ st !! particle_idx = Some (Some l) ∧ is_Some (heap st !! l)) ∧
        (particles_ st !! particle_idx = Some None →
         particle particle_idx st = Undefined ∧
         particle_const particle_idx st = Undefined)) ∧
  (particleNum st ≤ particle_idx →
        particle particle_idx st = Exited (cerr st ++ [error_out_of_range]) ∧
        particle_const particle_idx st = Exited (cerr st ++ [error_out_of_range]) ∧
        ¬ returns (particle particle_idx st) ∧
        ¬ returns (particle_const particle_idx st)).
Proof.
  unfold particle, particle_const, particleNum, returns. split; [|split].
  - intros l Hlt Hslot [v Hv].
    rewrite decide_False by lia.
    unfold vector_at. rewrite Hslot. simpl. rewrite Hv. done.
  - intros Hlt. rewrite decide_False by lia.
    destruct (lookup_lt_is_Some_2 _ _ Hlt) as [p Hp].
    unfold vector_at. rewrite Hp. simpl.
    assert (Hiff : (∃ a : loc,
                (_ ← deref (heap st) p;
                 match p with Some l => Ret l | None => Undefined end) = Ret a)
              ↔ ∃ l, Some p = Some (Some l) ∧ is_Some (heap st !! l)).
    { destruct p as [l|]; simpl.
      - destruct (heap st !! l) as [v|] eqn:Hv; simpl.
        + split; [intros _; exists l; split; [done|by exists v]|intros _; by exists l].
        + split; [intros [? ?]; discriminate|].
          intros (l' & [= <-] & [v Hv']). congruence.
      - split; [intros [? ?]; discriminate|intros (? & ? & _); discriminate]. }
    split; [exact Hiff|]. split; [exact Hiff|].
    intros [= ->]. done.
  - intros Hge. rewrite decide_True by done.
    repeat split; try done; intros [? ?]; discriminate.
Qed.

(** *** Pointers owned by the container *)

Lemma owns_slot_inj (ps : list (option loc)) (i j : nat) l :
  NoDup (omap id ps) → ps !! i = Some (Some l) → ps !! j = Some (Some l) → i = j.
Proof.
  revert i j. induction ps as [|[a|] ps IH]; intros i j Hnd Hi Hj.
  - done.
  - simpl in Hnd. apply NoDup_cons in Hnd as [Hnotin Hnd].
    destruct i as [|i], j as [|j]; simpl in *; simplify_eq; try done.
    + exfalso. apply Hnotin. apply list_elem_of_omap. exists (Some l).
      split; [by eapply list_elem_of_lookup_2|done].
    + exfalso. apply Hnotin. apply list_elem_of_omap. exists (Some l).
      split; [by eapply list_elem_of_lookup_2|done].
    + f_equal. eauto.
  - simpl in Hnd. destruct i as [|i], j as [|j]; simpl in *; simplify_eq.
    f_equal. eauto.
Qed.

Lemma NoDup_omap_delete (ps : list (option loc)) (i : nat) :
  NoDup (omap id ps) → NoDup (omap id (delete i ps)).
Proof.
  revert i. induction ps as [|[a|] ps IH]; intros i Hnd; [done| |].
  - simpl in Hnd. apply NoDup_cons in Hnd as [Hnotin Hnd].
    destruct i as [|i]; simpl; [done|].
    apply NoDup_cons. split; [|by apply IH].
    intros Hin. apply Hnotin.
    apply list_elem_of_omap in Hin as (x & Hx & Hfx).
    apply list_elem_of_omap. exists x. split; [|done].
    eapply elem_of_sublist; [exact Hx|]. apply sublist_delete.
  - simpl in Hnd. destruct i as [|i]; simpl; [done|]. by apply IH.
Qed.

Lemma live_insert h p l (v : SolidParticle) : live h p → live (<[l:=v]> h) p.
Proof.
  destruct p as [l'|]; unfold live; [|done].
  intros Hl. apply lookup_insert_is_Some. destruct (decide (l = l')); auto.
Qed.

(** *** Records across the parallel sequences *)

Lemma zip_entries_length (ps : list (option loc)) (bcs : list N) (vols : list Scalar)
    (wgs : list (list NodeIndexWeightGradientPair)) (nums : list N) :
  length bcs = length ps → length vols = length ps →
  length wgs = length ps → length nums = length ps →
  length (zip_entries ps bcs vols wgs nums) = length ps.
Proof.
  revert bcs vols wgs nums.
  induction ps as [|p ps IH]; intros [|b bcs] [|v vols] [|w wgs] [|n nums];
    simpl; intros; try done.
  f_equal. apply IH; lia.
Qed.

Lemma zip_entries_snoc (ps : list (option loc)) (bcs : list N) (vols : list Scalar)
    (wgs : list (list NodeIndexWeightGradientPair)) (nums : list N) p b v w n :
  length bcs = length ps → length vols = length ps →
  length wgs = length ps → length nums = length ps →
  zip_entries (ps ++ [p]) (bcs ++ [b]) (vols ++ [v]) (wgs ++ [w]) (nums ++ [n])
  = zip_entries ps bcs vols wgs nums ++ [mkEntry p b v w n].
Proof.
  revert bcs vols wgs nums.
  induction ps as [|p' ps IH]; intros [|b' bcs] [|v' vols] [|w' wgs] [|n' nums];
    simpl; intros; try done.
  f_equal. apply IH; lia.
Qed.

Lemma zip_entries_delete (i : nat) (ps : list (option loc)) (bcs : list N)
    (vols : list Scalar) (wgs : list (list NodeIndexWeightGradientPair)) (nums : list N) :
  length bcs = length ps → length vols = length ps →
  length wgs = length ps → length nums = length ps →
  zip_entries (delete i ps) (delete i bcs) (delete i vols) (delete i wgs) (delete i nums)
  = delete i (zip_entries ps bcs vols wgs nums).
Proof.
  revert i bcs vols wgs nums.
  induction ps as [|p' ps IH]; intros i [|b' bcs] [|v' vols] [|w' wgs] [|n' nums];
    simpl; intros; try done.
  destruct i as [|i]; simpl; [done|].
  f_equal. apply IH; lia.
Qed.

Lemma zip_entries_lookup (i : nat) (ps : list (option loc)) (bcs : list N)
    (vols : list Scalar) (wgs : list (list NodeIndexWeightGradientPair)) (nums : list N)
    (e : Entry) :
  zip_entries ps bcs vols wgs nums !! i = Some e →
  ps !! i = Some (e_particle e) ∧ bcs !! i = Some (e_is_bc e) ∧
  vols !! i = Some (e_initial_volume e) ∧
  wgs !! i = Some (e_weight_and_gradient e) ∧ nums !! i = Some (e_pair_num e).
Proof.
  revert i bcs vols wgs nums.
  induction ps as [|p' ps IH]; intros i [|b' bcs] [|v' vols] [|w' wgs] [|n' nums];
    simpl; intros He; try done.
  destruct i as [|i]; simpl in *; [by simplify_eq|]. by apply IH.
Qed.

(** *** [addParticle] *)

Lemma addParticle_Ret st (particle : loc) (v : SolidParticle) (w : GridWeightFunction) :
  heap st !! particle = Some v →
  weight_function_ st = Some w →
  addParticle Dim particle st =
    Ret {| heap := <[fresh (dom (heap st)) := v]> (heap st); cerr := cerr st;
           particles_ := particles_ st ++ [Some (fresh (dom (heap st)))];
           is_bc_particle_ := is_bc_particle_ st ++ [0%N];
           particle_initial_volume_ := particle_initial_volume_ st ++ [volume v];
           particle_grid_weight_and_gradient_ :=
             particle_grid_weight_and_gradient_ st
               ++ [max_num_weight_and_gradient_vec Dim (supportRadius w)];
           particle_grid_pair_num_ := particle_grid_pair_num_ st ++ [0%N];
           weight_function_ := weight_function_ st |}.
Proof.
  intros Hp Hw. unfold addParticle, clone. rewrite Hp. simpl.
  rewrite lookup_insert_eq. simpl.
  unfold appendSpaceForWeightAndGradient. simpl. rewrite Hw. done.
Qed.

Lemma addParticle_inv st (particle : loc) st' :
  addParticle Dim particle st = Ret st' →
  ∃ v w, heap st !! particle = Some v ∧ weight_function_ st = Some w.
Proof.
  unfold addParticle, clone. destruct (heap st !! particle) as [v|]; [|discriminate].
  simpl. rewrite lookup_insert_eq. simpl.
  unfold appendSpaceForWeightAndGradient. simpl.
  destruct (weight_function_ st) as [w|]; [|discriminate]. eauto.
Qed.

Lemma fresh_not_live h : h !! fresh (dom h) = None.
Proof. apply not_elem_of_dom. apply is_fresh. Qed.

Lemma addParticle_well_formed st (particle : loc) st' :
  well_formed st → addParticle Dim particle st = Ret st' → well_formed st'.
Proof.
  intros [(Hb & Hv & Hw & Hn) [Hlive Hnd]] Hadd.
  destruct (addParticle_inv _ _ _ Hadd) as (v & w & Hp & Hk).
  rewrite (addParticle_Ret _ _ _ _ Hp Hk) in Hadd. injection Hadd as <-.
  split; [|split]; simpl.
  - unfold aligned; simpl. rewrite !length_app; simpl. lia.
  - apply Forall_app. split.
    + eapply Forall_impl; [exact Hlive|]. intros p. apply live_insert.
    + constructor; [|constructor]. simpl. rewrite lookup_insert_eq. eauto.
  - rewrite omap_app. simpl. apply NoDup_app. split; [done|]. split.
    + intros l Hl Hin. apply list_elem_of_singleton in Hin as ->.
      apply list_elem_of_omap in Hl as (p & Hp' & Hid). simpl in Hid. subst p.
      rewrite Forall_forall in Hlive. apply Hlive in Hp'. simpl in Hp'.
      rewrite fresh_not_live in Hp'. by destruct Hp'.
    + apply NoDup_singleton.
Qed.

(** *** [removeParticle] *)

Lemma removeParticle_in_range st (particle_idx : nat) :
  aligned st → particle_idx < particleNum st →
  Forall (live (heap st)) (particles_ st) →
  ∃ p h', particles_ st !! particle_idx = Some p ∧
    delete_ptr p (heap st) = Ret h' ∧
    removeParticle particle_idx st =
      Ret {| heap := h'; cerr := cerr st;
             particles_ := delete particle_idx (particles_ st);
             is_bc_particle_ := delete particle_idx (is_bc_particle_ st);
             particle_initial_volume_ := delete particle_idx (particle_initial_volume_ st);
             particle_grid_weight_and_gradient_ :=
               delete particle_idx (particle_grid_weight_and_gradient_ st);
             particle_grid_pair_num_ := delete particle_idx (particle_grid_pair_num_ st);
             weight_function_ := weight_function_ st |}.
Proof.
  intros (Hb & Hv & Hw & Hn) Hi Hlive. unfold particleNum in Hi.
  destruct (lookup_lt_is_Some_2 _ _ Hi) as [p Hp].
  destruct (delete_ptr_live (heap st) p) as [h' Hh'].
  { rewrite Forall_lookup in Hlive. eauto. }
  exists p, h'. split; [done|]. split; [done|].
  unfold removeParticle. rewrite decide_False by lia.
  unfold vector_at. rewrite Hp. simpl. rewrite Hh'. simpl.
  unfold vector_erase. rewrite !decide_True by lia. done.
Qed.

Lemma delete_ptr_lookup h p h' l :
  delete_ptr p h = Ret h' → p ≠ Some l → h' !! l = h !! l.
Proof.
  destruct p as [l'|]; simpl.
  - destruct (h !! l') eqn:E; [|discriminate]. intros [= <-] Hne.
    apply lookup_delete_ne. congruence.
  - by intros [= <-].
Qed.

Lemma removeParticle_well_formed st (particle_idx : nat) st' :
  well_formed st → removeParticle particle_idx st = Ret st' → well_formed st'.
Proof.
  intros [Hal [Hlive Hnd]] Hrm.
  destruct (decide (particleNum st ≤ particle_idx)) as [Hge|Hlt].
  - rewrite (removeParticle_ignored st particle_idx Hge) in Hrm.
    injection Hrm as <-. by split.
  - destruct (removeParticle_in_range st particle_idx Hal ltac:(lia) Hlive)
      as (p & h' & Hp & Hh' & Hst2).
    rewrite Hrm in Hst2. injection Hst2 as ->.
    destruct Hal as (Hb & Hv & Hw & Hn). unfold particleNum in Hlt.
    split; [|split]; simpl.
    + unfold aligned; simpl. rewrite !length_delete_lt by lia. lia.
    + apply Forall_lookup. intros j q Hq.
      destruct q as [l|]; [|done]. unfold live.
      assert (Hj : particles_ st !! (if decide (j < particle_idx) then j else S j)
                   = Some (Some l)).
      { case_decide.
        - by rewrite list_lookup_delete_lt in Hq.
        - by rewrite list_lookup_delete_ge in Hq by lia. }
      rewrite (delete_ptr_lookup _ _ _ l Hh').
      * rewrite Forall_lookup in Hlive. exact (Hlive _ _ Hj).
      * intros ->. pose proof (owns_slot_inj _ _ _ _ Hnd Hp Hj). case_decide; lia.
    + by apply NoDup_omap_delete.
Qed.

Lemma apply_op_well_formed (o : operation) st st' :
  well_formed st → apply_op Dim o st = Ret st' → well_formed st'.
Proof.
  destruct o as [p|i]; simpl.
  - apply addParticle_well_formed.
  - apply removeParticle_well_formed.
Qed.

Lemma run_well_formed (ops : list operation) st st' :
  well_formed st → run Dim ops st = Ret st' → well_formed st'.
Proof.
  revert st. induction ops as [|o ops IH]; intros st Hwf; simpl.
  - by intros [= <-].
  - intros (st1 & Ho & Hrun)%bind_Ret.
    eapply IH; [|exact Hrun]. eapply apply_op_well_formed; eauto.
Qed.

Lemma empty_container_well_formed st : empty_container st → well_formed st.
Proof.
  intros (Hp & Hb & Hv & Hw & Hn). split; [|split].
  - unfold aligned. by rewrite Hp, Hb, Hv, Hw, Hn.
  - rewrite Hp. constructor.
  - rewrite Hp. constructor.
Qed.

Lemma apply_op_record_step (o : operation) st st' :
  well_formed st → apply_op Dim o st = Ret st' →
  record_step o (entries st) (entries st').
Proof.
  intros [Hal [Hlive Hnd]] Ho. pose proof Hal as (Hb & Hv & Hw & Hn).
  destruct o as [particle|i]; simpl in Ho.
  - destruct (addParticle_inv _ _ _ Ho) as (v & w & Hp & Hk).
    rewrite (addParticle_Ret _ _ _ _ Hp Hk) in Ho. injection Ho as <-.
    unfold entries; simpl. rewrite zip_entries_snoc by done. constructor.
  - destruct (decide (particleNum st ≤ i)) as [Hge|Hlt].
    + rewrite (removeParticle_ignored st i Hge) in Ho. injection Ho as <-.
      unfold entries. simpl.
      set (es := zip_entries _ _ _ _ _).
      replace es with (delete i es) at 2; [constructor|].
      apply list_delete_ge. unfold es. rewrite zip_entries_length by done.
      exact Hge.
    + destruct (removeParticle_in_range st i Hal ltac:(lia) Hlive)
        as (p & h' & Hp & Hh' & Hst2).
      rewrite Ho in Hst2. injection Hst2 as ->.
      unfold entries; simpl. rewrite zip_entries_delete by done. constructor.
Qed.

(** *** The parallel sequences under insertion and removal *)

(** C1.  Start from an empty container and run any sequence of
    [addParticle] and [removeParticle] calls that returns.  In the state
    reached the parallel sequences (particles, boundary flags, initial
    volumes, cache slots, valid-entry counters) have one length, so every
    index below the particle count has its record: the elements of the
    sequences at that index.  The sequences keep one length across every
    further call, and each call acts on whole records: an insertion
    appends one record, a removal erases the record at the one index from
    every sequence (none when the index is past the end), so an index
    means the same particle in all of them.  No removal can fail in such
    a state, and an insertion returns whenever the kernel is set and the
    argument is a live particle. *)
Theorem parallel_sequences_invariant (ops : list operation) st0 st :
  empty_container st0 →
  run Dim ops st0 = Ret st →
  aligned st ∧
  length (entries st) = particleNum st ∧
  (∀ i e, entries st !! i = Some e →
     particles_ st !! i = Some (e_particle e) ∧
     is_bc_particle_ st !! i = Some (e_is_bc e) ∧
     particle_initial_volume_ st !! i = Some (e_initial_volume e) ∧
     particle_grid_weight_and_gradient_ st !! i = Some (e_weight_and_gradient e) ∧
     particle_grid_pair_num_ st !! i = Some (e_pair_num e)) ∧
  (∀ o st', apply_op Dim o st = Ret st' →
     aligned st' ∧ length (entries st') = particleNum st' ∧
     record_step o (entries st) (entries st')) ∧
  (∀ i, returns (removeParticle i st)) ∧
  (∀ particle, is_Some (heap st !! particle) → is_Some (weight_function_ st) →
     returns (addParticle Dim particle st)).
Proof.
  intros Hempty Hrun.
  assert (Hwf : well_formed st).
  { eapply run_well_formed; [|exact Hrun]. by apply empty_container_well_formed. }
  assert (Hlen : ∀ s : @State Scalar, well_formed s → length (entries s) = particleNum s).
  { intros s [(Hb & Hv & Hw & Hn) _]. by apply zip_entries_length. }
  split_and!.
  - apply Hwf.
  - by apply Hlen.
  - intros i e. apply zip_entries_lookup.
  - intros o st' Ho.
    assert (Hwf' : well_formed st') by (eapply apply_op_well_formed; eauto).
    split_and!; [apply Hwf'|by apply Hlen|by apply apply_op_record_step].
  - intros i. destruct (decide (particleNum st ≤ i)) as [Hge|Hlt].
    + eexists. by apply removeParticle_ignored.
    + destruct Hwf as [Hal [Hlive _]].
      destruct (removeParticle_in_range st i Hal ltac:(lia) Hlive)
        as (p & h' & _ & _ & Hst').
      eexists. exact Hst'.
  - intros particle [v Hv] [w Hw]. eexists. by apply addParticle_Ret.
Qed.

(** *** Cache slot sizing *)

Lemma max_num_of_exact (n : nat) (r : N) :
  ((2 * r + 1) ^ N.of_nat n < 2 ^ 32)%N →
  max_num_of n r = ((2 * r + 1) ^ N.of_nat n)%N.
Proof.
  unfold max_num_of. induction n as [|n IH]; intros Hlt; [done|].
  rewrite Nat2N.inj_succ, N.pow_succ_r' in Hlt |- *.
  assert (Hpos : (1 ≤ (2 * r + 1) ^ N.of_nat n)%N).
  { pose proof (N.pow_nonzero (2 * r + 1) (N.of_nat n)). lia. }
  simpl. rewrite IH by nia.
  unfold uint_mul, uint_add, uint_wrap, uint_modulus.
  rewrite (N.mod_small (r * 2)) by nia.
  rewrite (N.mod_small (r * 2 + 1)) by nia.
  rewrite N.mod_small by nia. lia.
Qed.

Lemma length_max_num_vec (n : nat) (r : N) :
  length (max_num_weight_and_gradient_vec n r) = N.to_nat (max_num_of n r).
Proof. apply length_replicate. Qed.

(** *** What [addParticle] appends *)

Lemma particle_unfold st (i : nat) p :
  particles_ st !! i = Some p →
  particle i st =
    (_ ← deref (heap st) p; match p with Some l => Ret l | None => Undefined end) ∧
  particle_const i st =
    (_ ← deref (heap st) p; match p with Some l => Ret l | None => Undefined end).
Proof.
  intros Hp. pose proof (lookup_lt_Some _ _ _ Hp).
  unfold particle, particle_const. rewrite decide_False by lia.
  unfold vector_at. rewrite Hp. done.
Qed.

(** C4 (as amended).  For every container state whose kernel pointer is
    set, with a support radius [r] for which [(2r+1)^Dim] fits an
    [unsigned int], and every live particle [p], [addParticle(p)] returns
    and appends exactly one entry to each sequence: the new pointer, the
    flag 0, the volume of [p] at the call, a cache slot of [(2r+1)^Dim]
    entries and the counter 0.  [particle(particleNum()-1)] is then the
    new particle: it has the fields of [p], lives at an address that was
    not live before (so it is neither [p] nor any older particle), and
    writing to [p] afterwards does not change it.  Everything that was
    stored before is as it was. *)
Theorem addParticle_appends st (particle_arg : loc) (v : SolidParticle)
    (w : GridWeightFunction) :
  heap st !! particle_arg = Some v →
  weight_function_ st = Some w →
  ((2 * supportRadius w + 1) ^ N.of_nat Dim < 2 ^ 32)%N →
  ∃ st' l slot,
    addParticle Dim particle_arg st = Ret st' ∧
    particleNum st' = S (particleNum st) ∧
    particles_ st' = particles_ st ++ [Some l] ∧
    is_bc_particle_ st' = is_bc_particle_ st ++ [0%N] ∧
    particle_initial_volume_ st' = particle_initial_volume_ st ++ [volume v] ∧
    particle_grid_weight_and_gradient_ st' =
      particle_grid_weight_and_gradient_ st ++ [slot] ∧
    particle_grid_pair_num_ st' = particle_grid_pair_num_ st ++ [0%N] ∧
    length slot = N.to_nat ((2 * supportRadius w + 1) ^ N.of_nat Dim) ∧
    particle (particleNum st' - 1) st' = Ret l ∧
    particle_const (particleNum st' - 1) st' = Ret l ∧
    heap st' !! l = Some v ∧
    l ≠ particle_arg ∧
    heap st !! l = None ∧
    (∀ l', l' ≠ l → heap st' !! l' = heap st !! l') ∧
    (∀ v' : SolidParticle, <[particle_arg := v']> (heap st') !! l = Some v) ∧
    cerr st' = cerr st ∧
    weight_function_ st' = weight_function_ st.
Proof.
  intros Hp Hw Hfit.
  pose proof (fresh_not_live (heap st)) as Hfresh.
  set (l := fresh (dom (heap st))) in *.
  assert (Hne : l ≠ particle_arg) by congruence.
  eexists _, l, (max_num_weight_and_gradient_vec Dim (supportRadius w)).
  split; [by apply addParticle_Ret|]. simpl.
  assert (Hslot : (particles_ st ++ [Some l]) !! (length (particles_ st ++ [Some l]) - 1)
                  = Some (Some l)).
  { rewrite length_app. simpl.
    replace (length (particles_ st) + 1 - 1) with (length (particles_ st) + 0) by lia.
    by rewrite lookup_app_r, Nat.add_0_r, Nat.sub_diag by lia. }
  unfold particleNum; simpl.
  repeat split; try done.
  - rewrite length_app. simpl. lia.
  - rewrite length_max_num_vec, max_num_of_exact by done. done.
  - match goal with |- particle ?i ?s = _ =>
      destruct (particle_unfold s i (Some l) Hslot) as [-> _] end.
    simpl. by rewrite lookup_insert_eq.
  - match goal with |- particle_const ?i ?s = _ =>
      destruct (particle_unfold s i (Some l) Hslot) as [_ ->] end.
    simpl. by rewrite lookup_insert_eq.
  - by rewrite lookup_insert_eq.
  - intros l' Hl'. by rewrite lookup_insert_ne.
  - intros v'. rewrite lookup_insert_ne by done. by rewrite lookup_insert_eq.
Qed.

(** *** [removeParticle] on a valid index *)


(** *** Boundary marks *)

Lemma addBCParticle_each_eq (idxs : list nat) st :
  addBCParticle_each idxs st = addBCParticles idxs st.
Proof.
  revert st. induction idxs as [|i idxs IH]; intros st; simpl; [done|].
  destruct (addBCParticle i st); simpl; auto.
Qed.

Lemma addBCParticle_Ret st (i : nat) :
  length (is_bc_particle_ st) = particleNum st →
  ∃ st', addBCParticle i st = Ret st' ∧
    is_bc_particle_ st' =
      (if decide (i < particleNum st) then <[i:=1%N]> (is_bc_particle_ st)
       else is_bc_particle_ st) ∧
    cerr st' =
      (if decide (i < particleNum st) then cerr st else cerr st ++ [warn_out_of_range]) ∧
    heap st' = heap st ∧
    particles_ st' = particles_ st ∧
    particle_initial_volume_ st' = particle_initial_volume_ st ∧
    particle_grid_weight_and_gradient_ st' = particle_grid_weight_and_gradient_ st ∧
    particle_grid_pair_num_ st' = particle_grid_pair_num_ st ∧
    weight_function_ st' = weight_function_ st.
Proof.
  unfold particleNum. intros Hlen. unfold addBCParticle.
  destruct (decide (length (particles_ st) ≤ i)) as [Hge|Hlt].
  - eexists. split; [done|]. simpl. rewrite !decide_False by lia. done.
  - unfold vector_set. rewrite decide_True by lia. simpl.
    eexists. split; [done|]. simpl. rewrite !decide_True by lia. done.
Qed.

Lemma addBCParticles_Ret (idxs : list nat) st :
  length (is_bc_particle_ st) = particleNum st →
  ∃ st', addBCParticles idxs st = Ret st' ∧
    length (is_bc_particle_ st') = particleNum st' ∧
    (∀ j, is_bc_particle_ st' !! j =
          if decide (j < particleNum st ∧ j ∈ idxs) then Some 1%N
          else is_bc_particle_ st !! j) ∧
    cerr st' = cerr st ++ ((λ _, warn_out_of_range) <$> filter (λ i, particleNum st ≤ i) idxs) ∧
    heap st' = heap st ∧
    particles_ st' = particles_ st ∧
    particle_initial_volume_ st' = particle_initial_volume_ st ∧
    particle_grid_weight_and_gradient_ st' = particle_grid_weight_and_gradient_ st ∧
    particle_grid_pair_num_ st' = particle_grid_pair_num_ st ∧
    weight_function_ st' = weight_function_ st.
Proof.
  revert st. induction idxs as [|i idxs IH]; intros st Hlen; simpl.
  - exists st. split; [done|]. split; [done|]. split.
    + intros j. rewrite decide_False; [done|]. intros [_ Hin]. by apply not_elem_of_nil in Hin.
    + simpl. by rewrite app_nil_r.
  - destruct (addBCParticle_Ret st i Hlen)
      as (st1 & -> & Hbc1 & Hcerr1 & Hh1 & Hp1 & Hv1 & Hw1 & Hn1 & Hk1).
    simpl.
    assert (Hnum1 : particleNum st1 = particleNum st) by (unfold particleNum; by rewrite Hp1).
    assert (Hlen1 : length (is_bc_particle_ st1) = particleNum st1).
    { rewrite Hbc1, Hnum1. case_decide; [rewrite length_insert|]; done. }
    destruct (IH st1 Hlen1)
      as (st2 & -> & Hlen2 & Hbc2 & Hcerr2 & Hh2 & Hp2 & Hv2 & Hw2 & Hn2 & Hk2).
    exists st2. split; [done|]. split; [done|].
    rewrite Hnum1 in Hbc2, Hcerr2.
    split; [|split].
    + intros j. rewrite Hbc2, Hbc1.
      destruct (decide (j < particleNum st ∧ j ∈ idxs)) as [[Hj Hin]|Hnot];
        destruct (decide (j < particleNum st ∧ j ∈ i :: idxs)) as [[Hj' Hin']|Hnot'];
        try done.
      * exfalso. apply Hnot'. split; [done|]. by apply list_elem_of_further.
      * apply elem_of_cons in Hin' as [->|Hin']; [|exfalso; tauto].
        rewrite decide_True by done. rewrite list_lookup_insert_eq by lia. done.
      * destruct (decide (i < particleNum st)); [|done].
        rewrite list_lookup_insert_ne; [done|].
        intros ->. apply Hnot'. split; [done|apply list_elem_of_here].
    + rewrite Hcerr2, Hcerr1. rewrite filter_cons.
      destruct (decide (i < particleNum st)) as [Hi|Hi].
      * rewrite decide_False by lia. done.
      * rewrite decide_True by lia. rewrite fmap_cons, <- app_assoc. done.
    + repeat split; congruence.
Qed.

(** C9 (as amended).  Take any container whose flag vector is as long as
    its particle vector, mark a first list of indices by single
    [addBCParticle] calls and then a second list by [addBCParticles];
    the lists may overlap and may hold invalid indices.  Every call
    returns.  Afterwards the flag is 1 at every valid index of the two
    lists and is what it was everywhere else; so, when no flag was set
    before, the flags are 1 exactly at the valid marked indices.  An
    invalid index only adds a warning: std::cerr gets the out-of-range
    warning once for every invalid index of the two lists, in the order
    of the calls, and nothing for a valid one.  Marking the same lists
    again changes no flag, and nothing but the flags and std::cerr
    changes. *)
Theorem boundary_marks_union st (first second : list nat) :
  length (is_bc_particle_ st) = particleNum st →
  ∃ st1 st2,
    addBCParticle_each first st = Ret st1 ∧
    addBCParticles second st1 = Ret st2 ∧
    (∀ j, j < particleNum st → j ∈ first ++ second →
       is_bc_particle_ st2 !! j = Some 1%N) ∧
    (∀ j, ¬ (j < particleNum st ∧ j ∈ first ++ second) →
       is_bc_particle_ st2 !! j = is_bc_particle_ st !! j) ∧
    (marked_exactly (is_bc_particle_ st) (particleNum st) [] →
       marked_exactly (is_bc_particle_ st2) (particleNum st2) (first ++ second)) ∧
    (∃ st3 st4,
       addBCParticle_each first st2 = Ret st3 ∧
       addBCParticles second st3 = Ret st4 ∧
       is_bc_particle_ st4 = is_bc_particle_ st2) ∧
    cerr st2 =
      cerr st ++ ((λ _, warn_out_of_range) <$>
                  filter (λ i, particleNum st ≤ i) (first ++ second)) ∧
    particles_ st2 = particles_ st ∧
    heap st2 = heap st ∧
    particle_initial_volume_ st2 = particle_initial_volume_ st ∧
    particle_grid_weight_and_gradient_ st2 = particle_grid_weight_and_gradient_ st ∧
    particle_grid_pair_num_ st2 = particle_grid_pair_num_ st ∧
    weight_function_ st2 = weight_function_ st.
Proof.
  intros Hlen.
  assert (Htwice : ∀ s : @State Scalar, length (is_bc_particle_ s) = particleNum s →
    ∃ s1 s2, addBCParticle_each first s = Ret s1 ∧ addBCParticles second s1 = Ret s2 ∧
      length (is_bc_particle_ s2) = particleNum s2 ∧
      particleNum s2 = particleNum s ∧
      (∀ j, is_bc_particle_ s2 !! j =
            if decide (j < particleNum s ∧ j ∈ first ++ second) then Some 1%N
            else is_bc_particle_ s !! j) ∧
      particles_ s2 = particles_ s ∧ heap s2 = heap s ∧
      particle_initial_volume_ s2 = particle_initial_volume_ s ∧
      particle_grid_weight_and_gradient_ s2 = particle_grid_weight_and_gradient_ s ∧
      particle_grid_pair_num_ s2 = particle_grid_pair_num_ s ∧
      weight_function_ s2 = weight_function_ s).
  { intros s Hs.
    destruct (addBCParticles_Ret first s Hs)
      as (s1 & Hr1 & Hl1 & Hb1 & _ & Hh1 & Hp1 & Hv1 & Hw1 & Hn1 & Hk1).
    destruct (addBCParticles_Ret second s1 Hl1)
      as (s2 & Hr2 & Hl2 & Hb2 & _ & Hh2 & Hp2 & Hv2 & Hw2 & Hn2 & Hk2).
    assert (Hnum1 : particleNum s1 = particleNum s) by (unfold particleNum; by rewrite Hp1).
    exists s1, s2. rewrite addBCParticle_each_eq.
    split; [done|]. split; [done|]. split; [done|].
    split; [unfold particleNum; congruence|].
    split; [|repeat split; congruence].
    intros j. rewrite Hb2, Hb1, Hnum1.
    repeat case_decide; try done; exfalso;
      rewrite elem_of_app in *; tauto. }
  destruct (Htwice st Hlen)
    as (st1 & st2 & Hr1 & Hr2 & Hl2 & Hnum2 & Hb2 & Hp2 & Hh2 & Hv2 & Hw2 & Hn2 & Hk2).
  exists st1, st2. split; [done|]. split; [done|].
  split; [|split; [|split; [|split; [|split]]]]; [| | | | |done].
  5:{ destruct (addBCParticles_Ret first st Hlen)
        as (s1 & Hs1 & Hl1 & _ & Hc1 & _ & Hp1 & _).
      rewrite addBCParticle_each_eq, Hs1 in Hr1. injection Hr1 as ->.
      destruct (addBCParticles_Ret second st1 Hl1) as (s2 & Hs2 & _ & _ & Hc2 & _).
      rewrite Hs2 in Hr2. injection Hr2 as ->.
      assert (Hnum1 : particleNum st1 = particleNum st)
        by (unfold particleNum; by rewrite Hp1).
      rewrite Hc2, Hc1, Hnum1, filter_app, fmap_app. by rewrite app_assoc. }
  - intros j Hj Hin. rewrite Hb2. by rewrite decide_True.
  - intros j Hnot. rewrite Hb2. by rewrite decide_False.
  - intros Hnone j Hj. rewrite Hnum2 in Hj. rewrite Hb2.
    case_decide as Hc.
    + split; [tauto|done].
    + split.
      * intros H1. apply Hnone in H1; [|done]. by apply not_elem_of_nil in H1.
      * tauto.
  - destruct (Htwice st2 Hl2) as (st3 & st4 & Hr3 & Hr4 & _ & _ & Hb4 & _).
    exists st3, st4. split; [done|]. split; [done|].
    apply list_eq. intros j. rewrite Hb4, Hnum2.
    case_decide as Hc; [|done]. rewrite Hb2. by rewrite decide_True.
Qed.

(** *** [std::vector::resize] *)

Lemma vector_resize_length {A} (n : nat) (x : A) (v : list A) :
  length (vector_resize n x v) = n.
Proof.
  unfold vector_resize. rewrite length_app, length_take, length_replicate. lia.
Qed.

Lemma vector_resize_lookup_old {A} (n : nat) (x : A) (v : list A) (j : nat) :
  j < n → j < length v → vector_resize n x v !! j = v !! j.
Proof.
  intros Hn Hv. unfold vector_resize.
  rewrite lookup_app_l by (rewrite length_take; lia).
  by apply lookup_take_lt.
Qed.

Lemma vector_resize_lookup_new {A} (n : nat) (x : A) (v : list A) (j : nat) :
  j < n → length v ≤ j → vector_resize n x v !! j = Some x.
Proof.
  intros Hn Hv. unfold vector_resize.
  rewrite lookup_app_r by (rewrite length_take; lia).
  apply lookup_replicate_2. rewrite length_take. lia.
Qed.

(** *** [setParticles] *)

Lemma release_Ret (ps : list (option loc)) h :
  Forall (live h) ps → NoDup (omap id ps) →
  ∃ h', release ps h = Ret h' ∧
    (∀ l, Some l ∈ ps → h' !! l = None) ∧
    (∀ l, Some l ∉ ps → h' !! l = h !! l).
Proof.
  revert h. induction ps as [|p ps IH]; intros h Hlive Hnd; simpl.
  - exists h. split; [done|]. split; [|done].
    intros l Hl. by apply not_elem_of_nil in Hl.
  - apply Forall_cons in Hlive as [Hp Hlive].
    destruct (delete_ptr_live h p Hp) as [h1 Hh1]. rewrite Hh1. simpl.
    assert (Hnd' : NoDup (omap id ps)).
    { destruct p; simpl in Hnd; [by apply NoDup_cons in Hnd as [_ ?]|done]. }
    destruct (IH h1) as (h' & -> & Hgone & Hkept); [|done|].
    { apply Forall_forall. intros q Hq. destruct q as [l|]; [|done].
      unfold live. rewrite (delete_ptr_lookup _ _ _ l Hh1).
      - rewrite Forall_forall in Hlive. exact (Hlive _ Hq).
      - intros ->. simpl in Hnd. apply NoDup_cons in Hnd as [Hnotin _].
        apply Hnotin. apply list_elem_of_omap. by exists (Some l). }
    exists h'. split; [done|]. split.
    + intros l Hl. destruct (decide (Some l ∈ ps)) as [Hin|Hnin]; [by apply Hgone|].
      apply elem_of_cons in Hl as [<-|Hl]; [|done].
      rewrite Hkept by done. simpl in Hh1.
      destruct (h !! l); [|discriminate]. injection Hh1 as <-.
      apply lookup_delete_eq.
    + intros l Hl. apply not_elem_of_cons in Hl as [Hne Hl].
      rewrite Hkept by done. by apply (delete_ptr_lookup _ _ _ l Hh1).
Qed.

Lemma written_here (i : nat) (q : loc) (rest : list (option loc)) :
  written i (Some q :: rest) i.
Proof. split; [done|]. exists q. by rewrite Nat.sub_diag. Qed.

Lemma written_further (i j : nat) (x : option loc) (rest : list (option loc)) :
  written (S i) rest j → written i (x :: rest) j.
Proof.
  intros [Hle [q Hq]]. split; [lia|]. exists q.
  replace (j - i) with (S (j - S i)) by lia. done.
Qed.

Lemma setParticles_loop_frame (rest : list (option loc)) (i : nat) st st' :
  setParticles_loop i rest st = Ret st' →
  length (particles_ st') = length (particles_ st) ∧
  length (is_bc_particle_ st') = length (is_bc_particle_ st) ∧
  length (particle_initial_volume_ st') = length (particle_initial_volume_ st) ∧
  particle_grid_weight_and_gradient_ st' = particle_grid_weight_and_gradient_ st ∧
  particle_grid_pair_num_ st' = particle_grid_pair_num_ st ∧
  weight_function_ st' = weight_function_ st ∧
  cerr st' = cerr st ++ null_warnings i rest ∧
  (∀ l v, heap st !! l = Some v → heap st' !! l = Some v) ∧
  (∀ j, ¬ written i rest j →
     particles_ st' !! j = particles_ st !! j ∧
     is_bc_particle_ st' !! j = is_bc_particle_ st !! j ∧
     particle_initial_volume_ st' !! j = particle_initial_volume_ st !! j).
Proof.
  revert i st. induction rest as [|[q|] rest IH]; intros i st; simpl.
  - intros [= <-]. rewrite app_nil_r. split_and!; done.
  - intros ((l & h1) & Hclone & Hrest)%bind_Ret.
    apply bind_Ret in Hrest as (ps & (Hips & ->)%vector_set_Ret & Hrest).
    apply bind_Ret in Hrest as (bcs & (Hibc & ->)%vector_set_Ret & Hrest).
    apply bind_Ret in Hrest as (v & Hv & Hrest).
    apply bind_Ret in Hrest as (vols & (Hivol & ->)%vector_set_Ret & Hrest).
    apply IH in Hrest as (Hp & Hb & Hvl & Hw & Hn & Hk & Hc & Hh & Hframe).
    simpl in *.
    rewrite length_insert in Hp. rewrite length_insert in Hb.
    rewrite length_insert in Hvl.
    unfold clone in Hclone. destruct (heap st !! q) as [vq|] eqn:Hq; [|discriminate].
    injection Hclone as <- <-.
    split_and!; try done.
    + intros l' v' Hl'. apply Hh. rewrite lookup_insert_ne; [done|].
      intros <-. by rewrite fresh_not_live in Hl'.
    + intros j Hnw.
      assert (Hji : i ≠ j) by (intros ->; apply Hnw, written_here).
      destruct (Hframe j) as (-> & -> & ->).
      { intros Hw'. by apply Hnw, written_further. }
      by rewrite !list_lookup_insert_ne.
  - intros Hrest.
    apply IH in Hrest as (Hp & Hb & Hvl & Hw & Hn & Hk & Hc & Hh & Hframe).
    simpl in *. rewrite <- app_assoc in Hc.
    split_and!; try done.
    intros j Hnw. apply Hframe. intros Hw'. by apply Hnw, written_further.
Qed.

Lemma setParticles_loop_returns (rest : list (option loc)) (i : nat) st :
  i + length rest ≤ length (particles_ st) →
  i + length rest ≤ length (is_bc_particle_ st) →
  i + length rest ≤ length (particle_initial_volume_ st) →
  (∀ q, Some q ∈ rest → is_Some (heap st !! q)) →
  returns (setParticles_loop i rest st).
Proof.
  revert i st. induction rest as [|[q|] rest IH]; intros i st Hp Hb Hv Hlive; simpl in *.
  - by eexists.
  - destruct (Hlive q) as [vq Hq]; [apply list_elem_of_here|].
    unfold clone. rewrite Hq. simpl.
    unfold vector_set. rewrite !decide_True by lia. simpl.
    rewrite lookup_insert_eq. simpl. rewrite decide_True by lia. simpl.
    apply IH; simpl; rewrite ?length_insert; try lia.
    intros q' Hq'. apply lookup_insert_is_Some'. right.
    apply Hlive. by apply list_elem_of_further.
  - apply IH; simpl; try lia.
    intros q' Hq'. apply Hlive. by apply list_elem_of_further.
Qed.

Lemma setParticles_inv (particles : list (option loc)) st st' :
  setParticles Dim particles st = Ret st' →
  ∃ h w,
    release (particles_ st) (heap st) = Ret h ∧
    weight_function_ st = Some w ∧
    setParticles_loop 0 particles
      {| heap := h; cerr := cerr st;
         particles_ := vector_resize (length particles) None (particles_ st);
         is_bc_particle_ := vector_resize (length particles) 0%N (is_bc_particle_ st);
         particle_initial_volume_ :=
           vector_resize (length particles) s_zero (particle_initial_volume_ st);
         particle_grid_weight_and_gradient_ :=
           vector_resize (length (vector_resize (length particles) None (particles_ st)))
             (max_num_weight_and_gradient_vec Dim (supportRadius w))
             (particle_grid_weight_and_gradient_ st);
         particle_grid_pair_num_ :=
           vector_resize (length (vector_resize (length particles) None (particles_ st)))
             0%N (particle_grid_pair_num_ st);
         weight_function_ := weight_function_ st |} = Ret st'.
Proof.
  unfold setParticles. intros (h & Hh & Hrest)%bind_Ret.
  apply bind_Ret in Hrest as (st1 & Halloc & Hloop).
  unfold allocateSpaceForWeightAndGradient in Halloc. simpl in Halloc.
  destruct (weight_function_ st) as [w|] eqn:Hw; [|discriminate].
  injection Halloc as <-. by exists h, w.
Qed.

Lemma setParticles_returns (particles : list (option loc)) st :
  owns st →
  is_Some (weight_function_ st) →
  (∀ q, Some q ∈ particles → is_Some (heap st !! q) ∧ Some q ∉ particles_ st) →
  returns (setParticles Dim particles st).
Proof.
  intros [Hlive Hnd] [w Hw] Hin.
  destruct (release_Ret _ _ Hlive Hnd) as (h & Hh & _ & Hkept).
  unfold setParticles. rewrite Hh. simpl.
  unfold allocateSpaceForWeightAndGradient. simpl. rewrite Hw. simpl.
  apply setParticles_loop_returns; simpl; rewrite ?vector_resize_length; try lia.
  intros q Hq. destruct (Hin q Hq) as [Hq1 Hq2]. by rewrite Hkept.
Qed.

(** What [setParticles] leaves in place.  [std::vector::resize] keeps the
    elements below the old size, so a cache slot and its counter that
    existed before the call are not touched, whatever the kernel is now. *)
Lemma setParticles_old_slots_kept st (particles : list (option loc)) st' (j : nat) :
  setParticles Dim particles st = Ret st' →
  j < length particles →
  (j < length (particle_grid_weight_and_gradient_ st) →
     particle_grid_weight_and_gradient_ st' !! j
     = particle_grid_weight_and_gradient_ st !! j) ∧
  (j < length (particle_grid_pair_num_ st) →
     particle_grid_pair_num_ st' !! j = particle_grid_pair_num_ st !! j).
Proof.
  intros (h & w & _ & _ & Hloop)%setParticles_inv Hj.
  apply setParticles_loop_frame in Hloop as (_ & _ & _ & Hw & Hn & _).
  simpl in Hw, Hn. rewrite Hw, Hn, vector_resize_length.
  split; intros Hold; by apply vector_resize_lookup_old.
Qed.

Lemma release_inv (ps : list (option loc)) h h' :
  release ps h = Ret h' →
  (∀ l, Some l ∈ ps → h' !! l = None) ∧ (∀ l, h !! l = None → h' !! l = None).
Proof.
  revert h. induction ps as [|p ps IH]; intros h; simpl.
  - intros [= <-]. split; [|done]. intros l Hl. by apply not_elem_of_nil in Hl.
  - intros (h1 & Hh1 & Hrest)%bind_Ret. apply IH in Hrest as [Hgone Hnone].
    assert (Hmono : ∀ l, h !! l = None → h1 !! l = None).
    { intros l Hl. destruct p as [l1|]; simpl in Hh1; [|by injection Hh1 as <-].
      destruct (h !! l1); [|discriminate]. injection Hh1 as <-.
      destruct (decide (l1 = l)) as [->|]; [apply lookup_delete_eq|].
      by rewrite lookup_delete_ne. }
    split; [|by auto].
    intros l [<-|Hl]%elem_of_cons; [|by apply Hgone].
    apply Hnone. simpl in Hh1. destruct (h !! l); [|discriminate].
    injection Hh1 as <-. apply lookup_delete_eq.
Qed.

(** A slot that existed before the call and is given NULL keeps its old
    pointer, although the call released the object it pointed to. *)
Lemma setParticles_null_slot_pointer_kept st (particles : list (option loc)) st'
    (i : nat) :
  setParticles Dim particles st = Ret st' →
  particles !! i = Some None →
  i < particleNum st →
  particles_ st' !! i = particles_ st !! i ∧
  ∃ h, release (particles_ st) (heap st) = Ret h ∧
       ∀ l, particles_ st !! i = Some (Some l) → h !! l = None.
Proof.
  intros (h & w & Hrel & _ & Hloop)%setParticles_inv Hnull Hi.
  apply setParticles_loop_frame in Hloop as (_ & _ & _ & _ & _ & _ & _ & _ & Hframe).
  destruct (Hframe i) as (Hp & _).
  { intros [_ [q Hq]]. rewrite Nat.sub_0_r in Hq. congruence. }
  simpl in Hp. pose proof (lookup_lt_Some _ _ _ Hnull). split.
  - rewrite Hp. by apply vector_resize_lookup_old.
  - exists h. split; [done|]. intros l Hl.
    apply (proj1 (release_inv _ _ _ Hrel)). by eapply list_elem_of_lookup_2.
Qed.

(** The slots past the old size are the ones [resize] creates: they are
    sized for the current kernel and their counters are 0. *)
Lemma setParticles_new_slots_sized st (particles : list (option loc)) st'
    (w : GridWeightFunction) (j : nat) :
  setParticles Dim particles st = Ret st' →
  weight_function_ st = Some w →
  j < length particles →
  (length (particle_grid_weight_and_gradient_ st) ≤ j →
     particle_grid_weight_and_gradient_ st' !! j
     = Some (max_num_weight_and_gradient_vec Dim (supportRadius w))) ∧
  (length (particle_grid_pair_num_ st) ≤ j →
     particle_grid_pair_num_ st' !! j = Some 0%N).
Proof.
  intros (h & w' & _ & Hw' & Hloop)%setParticles_inv Hw Hj.
  rewrite Hw in Hw'. injection Hw' as <-.
  apply setParticles_loop_frame in Hloop as (_ & _ & _ & Hwg & Hn & _).
  simpl in Hwg, Hn. rewrite Hwg, Hn, vector_resize_length.
  split; intros Hnew; by apply vector_resize_lookup_new.
Qed.

Lemma release_other (ps : list (option loc)) h h' l :
  release ps h = Ret h' → Some l ∉ ps → h' !! l = h !! l.
Proof.
  revert h. induction ps as [|p ps IH]; intros h; simpl.
  - by intros [= <-].
  - intros (h1 & Hh1 & Hrest)%bind_Ret [Hne Hnin]%not_elem_of_cons.
    rewrite (IH _ Hrest Hnin). by apply (delete_ptr_lookup _ _ _ l Hh1).
Qed.

Lemma setParticles_loop_written (rest : list (option loc)) (i : nat) st st' :
  setParticles_loop i rest st = Ret st' →
  (∀ q, Some q ∈ rest → is_Some (heap st !! q)) →
  ∀ j q, i ≤ j → rest !! (j - i) = Some (Some q) →
  ∃ l (v : SolidParticle),
    heap st !! q = Some v ∧
    particles_ st' !! j = Some (Some l) ∧
    heap st' !! l = Some v ∧
    heap st !! l = None ∧
    is_bc_particle_ st' !! j = Some 0%N ∧
    particle_initial_volume_ st' !! j = Some (volume v).
Proof.
  revert i st. induction rest as [|[q0|] rest IH]; intros i st Hloop Hlive j q Hij Hq.
  - by rewrite lookup_nil in Hq.
  - simpl in Hloop.
    apply bind_Ret in Hloop as ((l0 & h1) & Hclone & Hrest).
    apply bind_Ret in Hrest as (ps & (Hips & ->)%vector_set_Ret & Hrest).
    apply bind_Ret in Hrest as (bcs & (Hibc & ->)%vector_set_Ret & Hrest).
    apply bind_Ret in Hrest as (v0 & Hv0 & Hrest).
    apply bind_Ret in Hrest as (vols & (Hivol & ->)%vector_set_Ret & Hrest).
    unfold clone in Hclone. destruct (heap st !! q0) as [vq|] eqn:Hq0; [|discriminate].
    injection Hclone as <- <-.
    simpl in Hv0. rewrite lookup_insert_eq in Hv0. injection Hv0 as <-.
    pose proof (fresh_not_live (heap st)) as Hfresh.
    destruct (decide (j = i)) as [->|Hne].
    + rewrite Nat.sub_diag in Hq. injection Hq as <-.
      apply setParticles_loop_frame in Hrest
        as (_ & _ & _ & _ & _ & _ & _ & Hh & Hframe).
      destruct (Hframe i) as (Hp & Hb & Hv); [intros [? _]; lia|].
      simpl in Hp, Hb, Hv, Hh.
      exists (fresh (dom (heap st))), vq.
      rewrite Hp, Hb, Hv, !list_lookup_insert_eq by done.
      repeat split; try done. apply Hh. apply lookup_insert_eq.
    + destruct (IH _ _ Hrest) with (j := j) (q := q) as (l & v & Hqv & Hp & Hl & Hnl & Hb & Hv).
      * simpl. intros q' Hq'. apply lookup_insert_is_Some'. right.
        apply Hlive. by apply list_elem_of_further.
      * lia.
      * replace (j - i) with (S (j - S i)) in Hq by lia. done.
      * simpl in Hqv, Hnl. exists l, v.
        assert (Hqlive : is_Some (heap st !! q)).
        { apply Hlive. eapply list_elem_of_lookup_2. exact Hq. }
        rewrite lookup_insert_ne in Hqv by (intros <-; rewrite Hfresh in Hqlive; by destruct Hqlive).
        repeat split; try done.
        destruct (heap st !! l) as [vl|] eqn:Hl'; [|done].
        rewrite lookup_insert_ne in Hnl; [congruence|].
        intros <-. congruence.
  - simpl in Hloop.
    destruct (decide (j = i)) as [->|Hne]; [by rewrite Nat.sub_diag in Hq|].
    destruct (IH _ _ Hloop) with (j := j) (q := q) as (l & v & H');
      [|lia|replace (j - i) with (S (j - S i)) in Hq by lia; done|by exists l, v].
    simpl. intros q' Hq'. apply Hlive. by apply list_elem_of_further.
Qed.

(** What [setParticles] stores for an argument that is not NULL: the
    count is the length of the argument list, and slot [j] holds the
    address of a new copy of the particle the argument points to, with
    flag 0 and that particle's volume. *)
Lemma setParticles_clones st (particles : list (option loc)) st' :
  setParticles Dim particles st = Ret st' →
  (∀ q, Some q ∈ particles → is_Some (heap st !! q) ∧ Some q ∉ particles_ st) →
  particleNum st' = length particles ∧
  aligned st' ∧
  cerr st' = cerr st ++ null_warnings 0 particles ∧
  ∀ j q, particles !! j = Some (Some q) →
    ∃ l (v : SolidParticle),
      heap st !! q = Some v ∧
      particles_ st' !! j = Some (Some l) ∧
      heap st' !! l = Some v ∧
      is_bc_particle_ st' !! j = Some 0%N ∧
      particle_initial_volume_ st' !! j = Some (volume v).
Proof.
  intros (h & w & Hrel & _ & Hloop)%setParticles_inv Hin.
  pose proof (setParticles_loop_frame _ _ _ _ Hloop)
    as (Hp & Hb & Hv & Hw & Hn & _ & Hc & _).
  simpl in Hp, Hb, Hv, Hw, Hn, Hc. rewrite vector_resize_length in *.
  unfold particleNum, aligned. rewrite Hp, Hb, Hv, Hw, Hn, !vector_resize_length.
  split; [done|]. split; [done|]. split; [done|].
  intros j q Hq.
  assert (Hh : ∀ q', Some q' ∈ particles → h !! q' = heap st !! q').
  { intros q' Hq'. apply (release_other _ _ _ _ Hrel). by apply Hin. }
  destruct (setParticles_loop_written _ _ _ _ Hloop) with (j := j) (q := q)
    as (l & v & Hqv & Hpl & Hl & _ & Hbc & Hvol).
  - simpl. intros q' Hq'. rewrite Hh by done. by apply Hin.
  - lia.
  - by rewrite Nat.sub_0_r.
  - simpl in Hqv. exists l, v. rewrite <- Hh by (by eapply list_elem_of_lookup_2).
    done.
Qed.

(** C10.  Take a container whose sequences are aligned, an index [i]
    below its particle count, and an argument list that holds NULL at
    [i].  Whenever [setParticles] returns, the boundary flag and the
    initial volume at [i] are what they were before the call: the slot is
    skipped, not reset to 0 or to a newly read volume.  And the call does
    return when the container owns its particles, the kernel is set and
    the argument's pointers are live particles of the caller. *)
Theorem setParticles_null_slot_keeps st (particles : list (option loc)) (i : nat) :
  aligned st →
  i < particleNum st →
  particles !! i = Some None →
  (∀ st', setParticles Dim particles st = Ret st' →
     is_bc_particle_ st' !! i = is_bc_particle_ st !! i ∧
     particle_initial_volume_ st' !! i = particle_initial_volume_ st !! i) ∧
  (owns st →
   is_Some (weight_function_ st) →
   (∀ q, Some q ∈ particles → is_Some (heap st !! q) ∧ Some q ∉ particles_ st) →
   returns (setParticles Dim particles st)).
Proof.
  intros (Hb & Hv & _) Hi Hnull. unfold particleNum in Hi.
  split; [|apply setParticles_returns].
  intros st' (h & w & _ & _ & Hloop)%setParticles_inv.
  apply setParticles_loop_frame in Hloop as (_ & _ & _ & _ & _ & _ & _ & _ & Hframe).
  destruct (Hframe i) as (_ & Hbc & Hvol).
  { intros [_ [q Hq]]. rewrite Nat.sub_0_r in Hq. congruence. }
  simpl in Hbc, Hvol. pose proof (lookup_lt_Some _ _ _ Hnull).
  rewrite Hbc, Hvol. split; apply vector_resize_lookup_old; lia.
Qed.

(** *** [maxParticleVelocityNorm] *)




(** *** Further properties: insertion followed by removal *)

Lemma delete_snoc {A} (n : nat) (v : list A) (x : A) :
  length v = n → delete n (v ++ [x]) = v.
Proof. intros <-. by rewrite delete_middle, app_nil_r. Qed.

(** X1.  In a container whose sequences are aligned and whose kernel is
    set, [addParticle(p)] followed by [removeParticle] of the index the
    new particle got (the old particle count) gives back the state before
    the insertion: every sequence, the store, the kernel and std::cerr. *)
Theorem addParticle_then_removeParticle st (particle_arg : loc) :
  aligned st →
  is_Some (heap st !! particle_arg) →
  is_Some (weight_function_ st) →
  (st' ← addParticle Dim particle_arg st; removeParticle (particleNum st) st') = Ret st.
Proof.
  intros (Hb & Hv & Hw & Hn) [v Hp] [w Hk].
  rewrite (addParticle_Ret _ _ _ _ Hp Hk). simpl.
  pose proof (fresh_not_live (heap st)) as Hfresh.
  unfold removeParticle, particleNum. simpl.
  rewrite decide_False by (rewrite length_app; simpl; lia).
  unfold vector_at.
  rewrite lookup_app_r, Nat.sub_diag by lia. simpl.
  rewrite lookup_insert_eq. simpl.
  unfold vector_erase. rewrite !decide_True by (rewrite length_app; simpl; lia). simpl.
  rewrite delete_insert_id by done.
  rewrite !delete_snoc by done.
  by destruct st.
Qed.

(** *** Further properties: the destructor and the store *)

Lemma release_owns (ps : list (option loc)) h h' :
  release ps h = Ret h' → Forall (live h) ps ∧ NoDup (omap id ps).
Proof.
  revert h. induction ps as [|p ps IH]; intros h; simpl.
  - intros _. split; constructor.
  - intros (h1 & Hh1 & Hrest)%bind_Ret.
    destruct (IH _ Hrest) as [Hlive Hnd].
    pose proof (release_inv _ _ _ Hrest) as [Hgone _].
    assert (Hsub : ∀ q, live h1 q → live h q).
    { intros [l|]; [|done]. unfold live. intros Hl.
      destruct p as [l1|]; simpl in Hh1; [|by injection Hh1 as <-].
      destruct (h !! l1) eqn:E; [|discriminate]. injection Hh1 as <-.
      destruct (decide (l1 = l)) as [->|Hne]; [by rewrite E|].
      by rewrite lookup_delete_ne in Hl. }
    split.
    + constructor.
      * destruct p as [l1|]; [|done]. unfold live. simpl in Hh1.
        destruct (h !! l1); [eauto|discriminate].
      * eapply Forall_impl; [exact Hlive|exact Hsub].
    + destruct p as [l1|]; simpl; [|done].
      apply NoDup_cons. split; [|done].
      intros Hin. apply list_elem_of_omap in Hin as (q & Hq & Hid).
      simpl in Hid. subst q.
      rewrite Forall_forall in Hlive. apply Hlive in Hq. unfold live in Hq.
      simpl in Hh1. destruct (h !! l1); [|discriminate]. injection Hh1 as <-.
      rewrite lookup_delete_eq in Hq. by destruct Hq.
Qed.

(** X2.  The destructor returns exactly when the container owns its
    particles (every slot that is not NULL points to a live object, and no
    two slots hold the same address); otherwise it deletes an object that
    is not live.  When it returns, every object a slot pointed to is
    released and every other object of the store is as it was. *)
Theorem destroy_returns_iff_owns st :
  (returns (destroy st) ↔ owns st) ∧
  (∀ h', destroy st = Ret h' →
     (∀ l, Some l ∈ particles_ st → h' !! l = None) ∧
     (∀ l, Some l ∉ particles_ st → h' !! l = heap st !! l)).
Proof.
  unfold destroy, returns, owns. split; [split|].
  - intros [h' Hh']. by apply release_owns in Hh'.
  - intros [Hlive Hnd]. destruct (release_Ret _ _ Hlive Hnd) as (h' & Hh' & _). eauto.
  - intros h' Hh'. split.
    + apply (release_inv _ _ _ Hh').
    + intros l Hl. by apply (release_other _ _ _ _ Hh').
Qed.

(** X3.  In a well-formed container [removeParticle(i)] on a valid index
    releases exactly the particle the slot points to: the store loses that
    one object (none when the slot is NULL), and the container reached is
    well formed again, so no slot is left pointing to the released
    object. *)
Theorem removeParticle_releases_slot st (i : nat) :
  well_formed st →
  i < particleNum st →
  ∃ st' p,
    removeParticle i st = Ret st' ∧
    particles_ st !! i = Some p ∧
    heap st' = match p with Some l => delete l (heap st) | None => heap st end ∧
    particles_ st' = delete i (particles_ st) ∧
    well_formed st' ∧
    (∀ l, p = Some l → Some l ∉ particles_ st').
Proof.
  intros Hwf Hi. pose proof Hwf as [Hal [Hlive Hnd]].
  destruct (removeParticle_in_range st i Hal Hi Hlive) as (p & h' & Hp & Hh' & Hst').
  eexists _, p. split; [exact Hst'|]. split; [done|].
  assert (Hwf' := removeParticle_well_formed _ _ _ Hwf Hst').
  assert (Hheap : h' = match p with Some l => delete l (heap st) | None => heap st end).
  { destruct p as [l|]; simpl in Hh'.
    - destruct (heap st !! l); [by injection Hh' as <-|discriminate].
    - by injection Hh' as <-. }
  simpl. split; [done|]. split; [done|]. split; [done|].
  intros l -> Hin. destruct Hwf' as [_ [Hlive' _]]. simpl in Hlive'.
  rewrite Forall_forall in Hlive'. apply Hlive' in Hin. unfold live in Hin.
  rewrite Hheap, lookup_delete_eq in Hin. by destruct Hin.
Qed.

Lemma elem_of_delete_other {A} (i : nat) (v : list A) (x y : A) :
  v !! i = Some y → x ≠ y → x ∈ v → x ∈ delete i v.
Proof.
  intros Hy Hne (j & Hj)%list_elem_of_lookup_1.
  assert (j ≠ i) by (intros ->; congruence).
  destruct (decide (j < i)).
  - apply (list_elem_of_lookup_2 _ j). by rewrite list_lookup_delete_lt.
  - apply (list_elem_of_lookup_2 _ (j - 1)).
    rewrite list_lookup_delete_ge by lia. by replace (S (j - 1)) with j by lia.
Qed.

Lemma elem_of_delete_inv {A} (i : nat) (v : list A) (x : A) :
  x ∈ delete i v → x ∈ v.
Proof. intros Hx. eapply elem_of_sublist; [exact Hx|apply sublist_delete]. Qed.

Lemma apply_op_only_owned_added (o : operation) h0 st st' :
  well_formed st → only_owned_added h0 st →
  apply_op Dim o st = Ret st' → only_owned_added h0 st'.
Proof.
  intros Hwf [Hfree Hsame] Ho. pose proof Hwf as [Hal [Hlive Hnd]].
  destruct o as [particle|i]; simpl in Ho.
  - destruct (addParticle_inv _ _ _ Ho) as (v & w & Hp & Hk).
    rewrite (addParticle_Ret _ _ _ _ Hp Hk) in Ho. injection Ho as <-.
    pose proof (fresh_not_live (heap st)) as Hfresh.
    assert (Hnew : Some (fresh (dom (heap st))) ∉ particles_ st).
    { intros Hin. rewrite Forall_forall in Hlive. apply Hlive in Hin.
      unfold live in Hin. rewrite Hfresh in Hin. by destruct Hin. }
    split; simpl.
    + intros l [Hl|Hl]%elem_of_app; [by apply Hfree|].
      apply list_elem_of_singleton in Hl. injection Hl as ->.
      by rewrite <- Hsame.
    + intros l Hl. rewrite elem_of_app, list_elem_of_singleton in Hl.
      rewrite lookup_insert_ne by (intros <-; apply Hl; by right).
      apply Hsame. intros Hin. apply Hl. by left.
  - destruct (decide (particleNum st ≤ i)) as [Hge|Hlt].
    + rewrite (removeParticle_ignored st i Hge) in Ho. by injection Ho as <-.
    + destruct (removeParticle_in_range st i Hal ltac:(lia) Hlive)
        as (p & h' & Hp & Hh' & Hst').
      rewrite Ho in Hst'. injection Hst' as ->.
      split; simpl.
      * intros l Hl. by apply Hfree, (elem_of_delete_inv i).
      * intros l Hl. destruct (decide (p = Some l)) as [->|Hne].
        -- simpl in Hh'. destruct (heap st !! l); [|discriminate].
           injection Hh' as <-. rewrite lookup_delete_eq. symmetry.
           apply Hfree. by eapply list_elem_of_lookup_2.
        -- rewrite (delete_ptr_lookup _ _ _ l Hh') by done.
           apply Hsame. intros Hin. apply Hl.
           eapply elem_of_delete_other; [exact Hp|congruence|done].
Qed.

(** X4.  Run any sequence of [addParticle] and [removeParticle] calls from
    an empty container and then the destructor: the destructor returns,
    and the store it leaves is exactly the store the run started with.
    Nothing the container allocated is leaked, and no object of the
    caller is released or changed. *)
Theorem run_then_destroy_restores_store (ops : list operation) st0 st :
  empty_container st0 →
  run Dim ops st0 = Ret st →
  destroy st = Ret (heap st0).
Proof.
  intros Hempty Hrun.
  assert (Hinv : well_formed st ∧ only_owned_added (heap st0) st).
  { assert (H0 : well_formed st0 ∧ only_owned_added (heap st0) st0).
    { split; [by apply empty_container_well_formed|].
      destruct Hempty as (Hp & _). split; [|done].
      intros l Hl. rewrite Hp in Hl. by apply not_elem_of_nil in Hl. }
    revert H0 Hrun. generalize (heap st0). generalize st0 as s. clear Hempty.
    induction ops as [|o ops IH]; intros s h0 [Hwf Hadd]; simpl.
    - by intros [= <-].
    - intros (s1 & Ho & Hrun)%bind_Ret. eapply IH; [|exact Hrun]. split.
      + eapply apply_op_well_formed; eauto.
      + eapply apply_op_only_owned_added; eauto. }
  destruct Hinv as [[_ [Hlive Hnd]] [Hfree Hsame]].
  destruct (release_Ret _ _ Hlive Hnd) as (h' & Hh' & Hgone & Hkept).
  unfold destroy. rewrite Hh'. f_equal. apply map_eq. intros l.
  destruct (decide (Some l ∈ particles_ st)) as [Hin|Hnin].
  - rewrite Hgone by done. symmetry. by apply Hfree.
  - rewrite Hkept by done. by apply Hsame.
Qed.

(** *** Further properties: [setParticles] and the constructor *)

(** X5.  When the container owns its particles, the kernel is set and
    every pointer of the argument that is not NULL points to a live
    particle of the caller, [setParticles] returns; the particle count is
    the length of the argument, the sequences are aligned, std::cerr gets
    one warning per NULL entry, in order and with its index; for every
    entry that is not NULL the slot holds a new copy (at an address other
    than the argument's) with the argument's fields, flag 0 and the
    argument's volume; the caller's objects and the kernel are as they
    were. *)
Theorem setParticles_replaces_all st (particles : list (option loc)) :
  owns st →
  is_Some (weight_function_ st) →
  (∀ q, Some q ∈ particles → is_Some (heap st !! q) ∧ Some q ∉ particles_ st) →
  ∃ st',
    setParticles Dim particles st = Ret st' ∧
    particleNum st' = length particles ∧
    aligned st' ∧
    cerr st' = cerr st ++ null_warnings 0 particles ∧
    weight_function_ st' = weight_function_ st ∧
    (∀ j q, particles !! j = Some (Some q) →
       ∃ l (v : SolidParticle),
         heap st !! q = Some v ∧
         particles_ st' !! j = Some (Some l) ∧
         heap st' !! l = Some v ∧
         l ≠ q ∧
         is_bc_particle_ st' !! j = Some 0%N ∧
         particle_initial_volume_ st' !! j = Some (volume v)) ∧
    (∀ l, is_Some (heap st !! l) → Some l ∉ particles_ st →
       heap st' !! l = heap st !! l).
Proof.
  intros Howns Hk Hin.
  destruct (setParticles_returns particles st Howns Hk Hin) as [st' Hst'].
  exists st'. split; [done|].
  destruct (setParticles_inv _ _ _ Hst') as (h & w & Hrel & _ & Hloop).
  pose proof (setParticles_loop_frame _ _ _ _ Hloop)
    as (Hp & Hb & Hv & Hw & Hn & Hker & Hc & Hgrow & _).
  simpl in Hp, Hb, Hv, Hw, Hn, Hker, Hc, Hgrow. rewrite vector_resize_length in *.
  assert (Hh : ∀ l, Some l ∉ particles_ st → h !! l = heap st !! l).
  { intros l Hl. by apply (release_other _ _ _ _ Hrel). }
  split_and!; try done.
  - unfold aligned. by rewrite Hp, Hb, Hv, Hw, Hn, !vector_resize_length.
  - intros j q Hq.
    assert (Hqin : Some q ∈ particles) by (by eapply list_elem_of_lookup_2).
    destruct (setParticles_loop_written _ _ _ _ Hloop) with (j := j) (q := q)
      as (l & v & Hqv & Hpl & Hl & Hfree & Hbc & Hvol).
    + simpl. intros q' Hq'. destruct (Hin q' Hq') as [Hlive Hnot]. by rewrite Hh.
    + lia.
    + by rewrite Nat.sub_0_r.
    + simpl in Hqv, Hfree. exists l, v.
      rewrite <- Hh by (by apply Hin). split_and!; try done. congruence.
  - intros l [v Hl] Hnot. rewrite Hl. apply Hgrow. by rewrite Hh.
Qed.

Lemma setParticles_loop_owned (rest : list (option loc)) (i : nat) st st' :
  setParticles_loop i rest st = Ret st' →
  i + length rest = length (particles_ st) →
  Forall (live (heap st)) (take i (particles_ st)) →
  NoDup (omap id (take i (particles_ st))) →
  (∀ j, i ≤ j → rest !! (j - i) = Some None → particles_ st !! j = Some None) →
  Forall (live (heap st')) (particles_ st') ∧ NoDup (omap id (particles_ st')).
Proof.
  revert i st. induction rest as [|[q|] rest IH]; intros i st Hloop Hlen Hlive Hnd Hnull;
    simpl in *.
  - injection Hloop as <-. rewrite take_ge in Hlive, Hnd by lia. done.
  - apply bind_Ret in Hloop as ((l & h1) & Hclone & Hrest).
    apply bind_Ret in Hrest as (ps & (Hips & ->)%vector_set_Ret & Hrest).
    apply bind_Ret in Hrest as (bcs & (Hibc & ->)%vector_set_Ret & Hrest).
    apply bind_Ret in Hrest as (v0 & Hv0 & Hrest).
    apply bind_Ret in Hrest as (vols & (Hivol & ->)%vector_set_Ret & Hrest).
    unfold clone in Hclone. destruct (heap st !! q) as [vq|] eqn:Hq; [|discriminate].
    injection Hclone as <- <-.
    pose proof (fresh_not_live (heap st)) as Hfresh.
    assert (Htake : take (S i) (<[i:=Some (fresh (dom (heap st)))]> (particles_ st))
                    = take i (particles_ st) ++ [Some (fresh (dom (heap st)))]).
    { erewrite take_S_r by (by apply list_lookup_insert_eq).
      by rewrite take_insert_ge. }
    apply IH in Hrest; simpl; [done| | | |].
    + rewrite length_insert. lia.
    + rewrite Htake. apply Forall_app. split.
      * eapply Forall_impl; [exact Hlive|]. intros p. apply live_insert.
      * constructor; [|constructor]. unfold live. rewrite lookup_insert_eq. eauto.
    + rewrite Htake, omap_app. simpl. apply NoDup_app. split; [done|]. split.
      * intros l Hl Hin. apply list_elem_of_singleton in Hin as ->.
        apply list_elem_of_omap in Hl as (p & Hp' & Hid). simpl in Hid. subst p.
        rewrite Forall_forall in Hlive. apply Hlive in Hp'. unfold live in Hp'.
        rewrite Hfresh in Hp'. by destruct Hp'.
      * apply NoDup_singleton.
    + intros j Hj Hjn. rewrite list_lookup_insert_ne by lia.
      apply Hnull; [lia|]. replace (j - i) with (S (j - S i)) by lia. done.
  - assert (Hi : particles_ st !! i = Some None).
    { apply Hnull; [done|]. by rewrite Nat.sub_diag. }
    assert (Htake : take (S i) (particles_ st) = take i (particles_ st) ++ [None]).
    { by apply take_S_r. }
    apply IH in Hloop; simpl; [done| | | |].
    + lia.
    + rewrite Htake. apply Forall_app. split; [done|]. by repeat constructor.
    + rewrite Htake, omap_app. simpl. by rewrite app_nil_r.
    + intros j Hj Hjn. apply Hnull; [lia|].
      replace (j - i) with (S (j - S i)) by lia. done.
Qed.

(** X6.  [setParticles] keeps the container well formed exactly under the
    condition the code does not check: when no NULL entry of the argument
    meets a slot that held a particle before the call.  Then (container
    owning its particles, kernel set, live arguments of the caller) the
    call returns a well-formed container whose slots are NULL exactly at
    the NULL entries of the argument. *)
Theorem setParticles_well_formed st (particles : list (option loc)) :
  owns st →
  is_Some (weight_function_ st) →
  (∀ q, Some q ∈ particles → is_Some (heap st !! q) ∧ Some q ∉ particles_ st) →
  (∀ j, j < particleNum st → particles !! j = Some None →
     particles_ st !! j = Some None) →
  ∃ st',
    setParticles Dim particles st = Ret st' ∧
    well_formed st' ∧
    (∀ j, particles_ st' !! j = Some None ↔ particles !! j = Some None).
Proof.
  intros Howns Hk Hin Hholes.
  destruct (setParticles_returns particles st Howns Hk Hin) as [st' Hst'].
  exists st'. split; [done|].
  destruct (setParticles_clones _ _ _ Hst' Hin) as (Hnum & Hal & _ & Hclones).
  destruct (setParticles_inv _ _ _ Hst') as (h & w & Hrel & _ & Hloop).
  pose proof (setParticles_loop_frame _ _ _ _ Hloop)
    as (_ & _ & _ & _ & _ & _ & _ & _ & Hframe).
  assert (Hstart : ∀ j, particles !! j = Some None →
            vector_resize (length particles) None (particles_ st) !! j = Some None).
  { intros j Hj. pose proof (lookup_lt_Some _ _ _ Hj).
    destruct (decide (j < particleNum st)) as [Hlt|Hge].
    - rewrite vector_resize_lookup_old by done. by apply Hholes.
    - apply vector_resize_lookup_new; unfold particleNum in *; lia. }
  split; [split; [done|]|].
  - apply (setParticles_loop_owned _ _ _ _ Hloop); simpl.
    + by rewrite vector_resize_length.
    + constructor.
    + constructor.
    + intros j _ Hj. rewrite Nat.sub_0_r in Hj. by apply Hstart.
  - intros j. split.
    + intros Hj. pose proof (lookup_lt_Some _ _ _ Hj) as Hlt.
      fold (particleNum st') in Hlt. rewrite Hnum in Hlt.
      destruct (lookup_lt_is_Some_2 _ _ Hlt) as [[q|] Hq]; [|done].
      destruct (Hclones j q Hq) as (l & v & _ & Hl & _). congruence.
    + intros Hj. destruct (Hframe j) as (-> & _).
      * intros [_ [q Hq]]. rewrite Nat.sub_0_r in Hq. congruence.
      * simpl. by apply Hstart.
Qed.

(** X7.  The constructor that takes a particle list, on top of a base
    object whose sequences are empty and whose kernel is set: given live
    particles, it returns a well-formed container with one slot per entry
    of the list; and when the list holds no NULL, every slot holds a
    particle, so [particle(j)] returns for every [j] below the count and
    [maxParticleVelocityNorm] returns. *)
Theorem MPMSolidBase_from_particles_well_formed (particles : list (option loc))
    (base : State) :
  empty_container base →
  is_Some (weight_function_ base) →
  (∀ q, Some q ∈ particles → is_Some (heap base !! q)) →
  ∃ st',
    MPMSolidBase_from_particles Dim particles base = Ret st' ∧
    particleNum st' = length particles ∧
    well_formed st' ∧
    (None ∉ particles →
       (∀ j, j < particleNum st' → returns (particle j st')) ∧
       returns (maxParticleVelocityNorm st')).
Proof.
  intros Hempty Hk Hlive. pose proof Hempty as (Hp & _).
  assert (Hin : ∀ q, Some q ∈ particles →
            is_Some (heap base !! q) ∧ Some q ∉ particles_ base).
  { intros q Hq. split; [by apply Hlive|]. rewrite Hp. apply not_elem_of_nil. }
  destruct (setParticles_well_formed base particles) as (st' & Hst' & Hwf & Hholes);
    [by apply empty_container_well_formed|done|done| |].
  { unfold particleNum. rewrite Hp. simpl. lia. }
  exists st'. split; [done|].
  destruct (setParticles_clones _ _ _ Hst' Hin) as (Hnum & _).
  split; [done|]. split; [done|].
  intros Hfull.
  assert (Hslots : Forall (holds_particle (heap st')) (particles_ st')).
  { destruct Hwf as [_ [Hlive' _]]. apply Forall_lookup. intros j p Hj.
    rewrite Forall_lookup in Hlive'. specialize (Hlive' j p Hj).
    destruct p as [l|]; [by exists l|].
    exfalso. apply Hfull. apply Hholes in Hj. by eapply list_elem_of_lookup_2. }
  split.
  - intros j Hj. destruct (lookup_lt_is_Some_2 (particles_ st') j Hj) as [p Hp'].
    rewrite Forall_lookup in Hslots. destruct (Hslots j p Hp') as (l & -> & [v Hv]).
    exists l. destruct (particle_unfold st' j (Some l) Hp') as [-> _].
    simpl. by rewrite Hv.
  - unfold returns, maxParticleVelocityNorm.
    destruct (particles_ st') as [|p0 ps0] eqn:Hps; [eauto|].
    assert (Hloop : ∀ ps m, Forall (holds_particle (heap st')) ps →
              returns (min_vel_loop (heap st') ps m)).
    { induction ps as [|p ps IH]; intros m Hall; simpl; [by eexists|].
      apply Forall_cons in Hall as [(l & -> & [v Hv]) Hall].
      simpl. rewrite Hv. simpl. by apply IH. }
    destruct (Hloop (p0 :: ps0) s_max Hslots) as [m ->]. simpl. eauto.
Qed.

(** *** Further properties: the kernel and the cache *)

(** X8.  With a NULL kernel pointer neither [addParticle] nor
    [setParticles] returns: [addParticle] of a live particle dereferences
    the pointer, and [setParticles] on a container that owns its particles
    stops at the assertion of [allocateSpaceForWeightAndGradient], after
    the old particles were released. *)
Theorem kernel_required st (particle_arg : loc) (particles : list (option loc)) :
  weight_function_ st = None →
  ¬ returns (addParticle Dim particle_arg st) ∧
  ¬ returns (setParticles Dim particles st) ∧
  (is_Some (heap st !! particle_arg) → addParticle Dim particle_arg st = Undefined) ∧
  (owns st → setParticles Dim particles st = AssertFailed).
Proof.
  intros Hk. split_and!.
  - intros [st' Hst']. apply addParticle_inv in Hst' as (v & w & _ & Hw). congruence.
  - intros [st' Hst']. apply setParticles_inv in Hst' as (h & w & _ & Hw & _). congruence.
  - intros [v Hv]. unfold addParticle, clone. rewrite Hv. simpl.
    rewrite lookup_insert_eq. simpl.
    unfold appendSpaceForWeightAndGradient. simpl. by rewrite Hk.
  - intros [Hlive Hnd]. destruct (release_Ret _ _ Hlive Hnd) as (h & Hh & _).
    unfold setParticles. rewrite Hh. simpl.
    unfold allocateSpaceForWeightAndGradient. simpl. by rewrite Hk.
Qed.

(** X9.  The slot size computed by the loop [max_num *= r*2+1] is
    [(2r+1)^Dim] reduced modulo [2^32], for every support radius and every
    dimension. *)
Theorem max_num_of_modulo (n : nat) (r : N) :
  max_num_of n r = (((2 * r + 1) ^ N.of_nat n) mod uint_modulus)%N.
Proof.
  unfold max_num_of. induction n as [|n IH]; [done|].
  rewrite Nat2N.inj_succ, N.pow_succ_r'. simpl. rewrite IH.
  unfold uint_mul, uint_add, uint_wrap.
  rewrite N.Div0.add_mod_idemp_l, N.Div0.mul_mod_idemp_l, N.Div0.mul_mod_idemp_r.
  f_equal. lia.
Qed.

Lemma vector_erase_Ret {A} (i : nat) (v v' : list A) :
  vector_erase i v = Ret v' ↔ i < length v ∧ v' = delete i v.
Proof.
  unfold vector_erase. case_decide; split; intros H'; try discriminate.
  - split; [done|congruence].
  - destruct H' as [_ ->]. done.
  - destruct H'; lia.
Qed.

Lemma removeParticle_inv st (i : nat) st' :
  removeParticle i st = Ret st' →
  (particleNum st ≤ i ∧ st' = log warn_out_of_range st) ∨
  (i < particleNum st ∧
   i < length (is_bc_particle_ st) ∧
   i < length (particle_initial_volume_ st) ∧
   i < length (particle_grid_weight_and_gradient_ st) ∧
   i < length (particle_grid_pair_num_ st) ∧
   particles_ st' = delete i (particles_ st) ∧
   is_bc_particle_ st' = delete i (is_bc_particle_ st) ∧
   particle_initial_volume_ st' = delete i (particle_initial_volume_ st) ∧
   particle_grid_weight_and_gradient_ st' =
     delete i (particle_grid_weight_and_gradient_ st) ∧
   particle_grid_pair_num_ st' = delete i (particle_grid_pair_num_ st) ∧
   weight_function_ st' = weight_function_ st).
Proof.
  unfold removeParticle, particleNum. case_decide as Hi.
  - intros [= <-]. by left.
  - intros (p & _ & Hrest)%bind_Ret.
    apply bind_Ret in Hrest as (h & _ & Hrest).
    apply bind_Ret in Hrest as (ps & (? & ->)%vector_erase_Ret & Hrest).
    apply bind_Ret in Hrest as (vols & (? & ->)%vector_erase_Ret & Hrest).
    apply bind_Ret in Hrest as (bcs & (? & ->)%vector_erase_Ret & Hrest).
    apply bind_Ret in Hrest as (wgs & (? & ->)%vector_erase_Ret & Hrest).
    apply bind_Ret in Hrest as (nums & (? & ->)%vector_erase_Ret & Hrest).
    injection Hrest as <-.
    right. simpl. split_and!; try done; lia.
Qed.

Lemma addBCParticle_inv st (i : nat) st' :
  addBCParticle i st = Ret st' →
  particles_ st' = particles_ st ∧
  length (is_bc_particle_ st') = length (is_bc_particle_ st) ∧
  particle_initial_volume_ st' = particle_initial_volume_ st ∧
  particle_grid_weight_and_gradient_ st' = particle_grid_weight_and_gradient_ st ∧
  particle_grid_pair_num_ st' = particle_grid_pair_num_ st ∧
  weight_function_ st' = weight_function_ st.
Proof.
  unfold addBCParticle. case_decide.
  - by intros [= <-].
  - unfold vector_set. case_decide; [|discriminate]. simpl. intros [= <-]. simpl.
    by rewrite length_insert.
Qed.

Lemma addBCParticles_inv (idxs : list nat) st st' :
  addBCParticles idxs st = Ret st' →
  particles_ st' = particles_ st ∧
  length (is_bc_particle_ st') = length (is_bc_particle_ st) ∧
  particle_initial_volume_ st' = particle_initial_volume_ st ∧
  particle_grid_weight_and_gradient_ st' = particle_grid_weight_and_gradient_ st ∧
  particle_grid_pair_num_ st' = particle_grid_pair_num_ st ∧
  weight_function_ st' = weight_function_ st.
Proof.
  revert st. induction idxs as [|i idxs IH]; intros st; simpl.
  - by intros [= <-].
  - intros (st1 & H1 & Hrest)%bind_Ret.
    apply addBCParticle_inv in H1 as (Hp1 & Hb1 & Hv1 & Hw1 & Hn1 & Hk1).
    apply IH in Hrest as (Hp2 & Hb2 & Hv2 & Hw2 & Hn2 & Hk2).
    split_and!; congruence.
Qed.

Lemma apply_call_cache_ready (c : call) (w : GridWeightFunction) st st' :
  aligned st ∧ cache_ready Dim w st →
  apply_call Dim c st = Ret st' →
  aligned st' ∧ cache_ready Dim w st'.
Proof.
  intros [(Hb & Hv & Hw & Hn) (Hk & Hslots & Hnums)] Hc.
  destruct c as [p|i|ps|i|idxs]; simpl in Hc.
  - destruct (addParticle_inv _ _ _ Hc) as (v & w' & Hp & Hk').
    rewrite (addParticle_Ret _ _ _ _ Hp Hk') in Hc. injection Hc as <-.
    rewrite Hk in Hk'. injection Hk' as <-.
    split; [unfold aligned; simpl; rewrite !length_app; simpl; lia|].
    split; [done|]. simpl. split; apply Forall_app; split; try done; by repeat constructor.
  - apply removeParticle_inv in Hc
      as [[_ ->]|(? & ? & ? & ? & ? & Hp' & Hb' & Hv' & Hw' & Hn' & Hk')].
    + done.
    + split.
      * unfold aligned. rewrite Hp', Hb', Hv', Hw', Hn', !length_delete_lt by lia. lia.
      * unfold cache_ready. rewrite Hk', Hw', Hn'.
        split; [done|]. split; by apply Forall_delete.
  - destruct (setParticles_inv _ _ _ Hc) as (h & w' & _ & Hk' & Hloop).
    rewrite Hk in Hk'. injection Hk' as <-.
    apply setParticles_loop_frame in Hloop as (Hp' & Hb' & Hv' & Hw' & Hn' & Hk' & _).
    simpl in Hp', Hb', Hv', Hw', Hn', Hk'. rewrite vector_resize_length in *.
    split.
    + unfold aligned. by rewrite Hp', Hb', Hv', Hw', Hn', !vector_resize_length.
    + unfold cache_ready. rewrite Hk', Hw', Hn'. split; [done|].
      unfold vector_resize. split; apply Forall_app; split;
        try (by apply Forall_take); by apply Forall_replicate.
  - apply addBCParticle_inv in Hc as (Hp' & Hb' & Hv' & Hw' & Hn' & Hk').
    split; [unfold aligned|unfold cache_ready]; rewrite ?Hp', ?Hb', ?Hv', ?Hw', ?Hn', ?Hk';
      done.
  - apply addBCParticles_inv in Hc as (Hp' & Hb' & Hv' & Hw' & Hn' & Hk').
    split; [unfold aligned|unfold cache_ready]; rewrite ?Hp', ?Hb', ?Hv', ?Hw', ?Hn', ?Hk';
      done.
Qed.

Lemma apply_call_returns (c : call) (w : GridWeightFunction) st :
  aligned st → weight_function_ st = Some w →
  call_in_contract c st →
  returns (apply_call Dim c st).
Proof.
  intros Hal Hk [[Hlive Hnd] Hc]. unfold returns.
  destruct c as [p|i|ps|i|idxs]; simpl in *.
  - destruct Hc as [v Hp]. rewrite (addParticle_Ret _ _ _ _ Hp Hk). eauto.
  - destruct (decide (i < particleNum st)) as [Hi|Hi].
    + destruct (removeParticle_in_range st i Hal Hi Hlive) as (? & ? & _ & _ & ->). eauto.
    + rewrite removeParticle_ignored by lia. eauto.
  - apply setParticles_returns; [done| |done]. by exists w.
  - destruct (addBCParticle_Ret st i) as (st' & -> & _); [apply Hal|]. eauto.
  - destruct (addBCParticles_Ret idxs st) as (st' & -> & _); [apply Hal|]. eauto.
Qed.

(** X10.  Start from an empty container with kernel [w] and run any
    sequence of [addParticle], [removeParticle], [setParticles],
    [addBCParticle] and [addBCParticles] calls, each made within the
    contract: on a container that owns its particles, [addParticle] with
    a live particle, [setParticles] with pointers that are NULL or point
    to live particles the container does not own.  The run returns, and
    in the state reached the parallel sequences have one length, the
    kernel is still [w], every cache slot is the default-filled vector of
    the size computed for [w], and every valid-entry counter is 0. *)
Theorem run_calls_cache_ready (cs : list call) (w : GridWeightFunction) st0 :
  empty_container st0 →
  weight_function_ st0 = Some w →
  run_in_contract Dim cs st0 →
  ∃ st,
    run_calls Dim cs st0 = Ret st ∧
    aligned st ∧
    cache_ready Dim w st ∧
    (∀ j slot, particle_grid_weight_and_gradient_ st !! j = Some slot →
       length slot = N.to_nat (max_num_of Dim (supportRadius w))) ∧
    (∀ j, j < particleNum st → particle_grid_pair_num_ st !! j = Some 0%N).
Proof.
  intros Hempty Hk Hvalid.
  assert (Hinv : ∃ st, run_calls Dim cs st0 = Ret st ∧ aligned st ∧ cache_ready Dim w st).
  { assert (H0 : aligned st0 ∧ cache_ready Dim w st0).
    { destruct Hempty as (Hp & Hb & Hv & Hw & Hn). split.
      - unfold aligned. by rewrite Hp, Hb, Hv, Hw, Hn.
      - unfold cache_ready. rewrite Hw, Hn. by repeat split. }
    clear Hempty Hk. revert st0 H0 Hvalid.
    induction cs as [|c cs IH]; intros s Hs; simpl.
    - intros _. by exists s.
    - intros [Hc Hrest].
      destruct (apply_call_returns c w s) as [s1 Hs1]; [apply Hs|apply Hs|done|].
      rewrite Hs1 in Hrest |- *. simpl.
      apply IH; [|done]. eapply apply_call_cache_ready; eauto. }
  destruct Hinv as (st & Hrun & Hal & Hready).
  exists st. split; [done|]. split; [done|]. split; [done|].
  destruct Hal as (_ & _ & _ & Hn). destruct Hready as (_ & Hslots & Hnums). split.
  - intros j slot Hj. rewrite Forall_lookup in Hslots.
    rewrite (Hslots j slot Hj). apply length_max_num_vec.
  - intros j Hj. unfold particleNum in Hj.
    destruct (lookup_lt_is_Some_2 (particle_grid_pair_num_ st) j ltac:(lia)) as [n Hjn].
    rewrite Forall_lookup in Hnums. by rewrite Hjn, (Hnums j n Hjn).
Qed.

(** *** Further properties: boundary marks in any order *)

Lemma state_eq st1 st2 :
  heap st1 = heap st2 → cerr st1 = cerr st2 →
  particles_ st1 = particles_ st2 →
  is_bc_particle_ st1 = is_bc_particle_ st2 →
  particle_initial_volume_ st1 = particle_initial_volume_ st2 →
  particle_grid_weight_and_gradient_ st1 = particle_grid_weight_and_gradient_ st2 →
  particle_grid_pair_num_ st1 = particle_grid_pair_num_ st2 →
  weight_function_ st1 = weight_function_ st2 →
  st1 = st2.
Proof. destruct st1, st2; simpl; intros; by subst. Qed.

Lemma fmap_const_replicate {A B} (c : B) (v : list A) :
  (λ _, c) <$> v = replicate (length v) c.
Proof. induction v as [|x v IH]; [done|]. csimpl. by f_equal. Qed.

(** X11.  In a container whose flag vector is as long as its particle
    vector, the outcome of [addBCParticles] depends only on which indices
    the argument holds and how often, not on their order: two arguments
    that are permutations of each other lead to the same state, flags and
    warnings included. *)
Theorem addBCParticles_order_irrelevant st (idxs idxs' : list nat) :
  length (is_bc_particle_ st) = particleNum st →
  idxs ≡ₚ idxs' →
  addBCParticles idxs st = addBCParticles idxs' st.
Proof.
  intros Hlen Hperm.
  destruct (addBCParticles_Ret idxs st Hlen)
    as (s1 & -> & _ & Hb1 & Hc1 & Hh1 & Hp1 & Hv1 & Hw1 & Hn1 & Hk1).
  destruct (addBCParticles_Ret idxs' st Hlen)
    as (s2 & -> & _ & Hb2 & Hc2 & Hh2 & Hp2 & Hv2 & Hw2 & Hn2 & Hk2).
  f_equal. apply state_eq; try congruence.
  - rewrite Hc1, Hc2, !fmap_const_replicate. do 2 f_equal.
    apply Permutation_length. by rewrite Hperm.
  - apply list_eq. intros j. rewrite Hb1, Hb2.
    destruct (decide (j < particleNum st ∧ j ∈ idxs)) as [[Hj Hin]|Hnot];
      destruct (decide (j < particleNum st ∧ j ∈ idxs')) as [[Hj' Hin']|Hnot'];
      try done; exfalso.
    + apply Hnot'. split; [done|]. by rewrite <- Hperm.
    + apply Hnot. split; [done|]. by rewrite Hperm.
Qed.

(** *** Further properties: when [maxParticleVelocityNorm] returns *)

Lemma min_vel_loop_returns h (ps : list (option loc)) (min_vel : Scalar) :
  returns (min_vel_loop h ps min_vel) ↔ Forall (holds_particle h) ps.
Proof.
  revert min_vel. induction ps as [|p ps IH]; intros min_vel; simpl.
  - split; [constructor|by eexists].
  - split.
    + intros [r Hr]. apply bind_Ret in Hr as (v & Hv & Hr).
      constructor.
      * destruct p as [l|]; [|discriminate]. simpl in Hv. exists l. split; [done|].
        destruct (h !! l); [eauto|discriminate].
      * eapply IH. by eexists.
    + intros [(l & -> & [v Hv]) Hall]%Forall_cons.
      simpl. rewrite Hv. simpl. by apply IH.
Qed.

Lemma min_vel_loop_range h (ps : list (option loc)) (min_vel r : Scalar) :
  min_vel_loop h ps min_vel = Ret r →
  r = min_vel ∨
  ∃ l (v : SolidParticle), Some l ∈ ps ∧ h !! l = Some v ∧ r = normSquared (velocity v).
Proof.
  revert min_vel. induction ps as [|p ps IH]; intros min_vel; simpl.
  - intros [= <-]. by left.
  - intros (v & Hv & Hr)%bind_Ret.
    destruct p as [l|]; [|discriminate]. simpl in Hv.
    destruct (h !! l) as [v'|] eqn:Hl; [|discriminate]. injection Hv as ->.
    apply IH in Hr as [->|(l' & v' & Hin & Hl' & ->)].
    + destruct (s_lt (normSquared (velocity v)) min_vel); [|by left].
      right. exists l, v. split; [apply list_elem_of_here|done].
    + right. exists l', v'. split; [by apply list_elem_of_further|done].
Qed.

(** X12.  [maxParticleVelocityNorm] reads every particle: it returns
    exactly when every slot points to a live particle (which includes the
    empty container); one NULL or released slot makes the call undefined.
    When it returns on a container that is not empty, the value is the
    square root either of the squared speed of one of the particles or of
    [numeric_limits<Scalar>::max()]. *)
Theorem maxParticleVelocityNorm_returns_iff st :
  (returns (maxParticleVelocityNorm st)
   ↔ Forall (holds_particle (heap st)) (particles_ st)) ∧
  (¬ Forall (holds_particle (heap st)) (particles_ st) →
   maxParticleVelocityNorm st = Undefined) ∧
  (∀ r, particleNum st ≠ 0 → maxParticleVelocityNorm st = Ret r →
     r = s_sqrt s_max ∨
     ∃ l (v : SolidParticle),
       Some l ∈ particles_ st ∧ heap st !! l = Some v ∧
       r = s_sqrt (normSquared (velocity v))).
Proof.
  assert (Hiff : returns (maxParticleVelocityNorm st)
                 ↔ Forall (holds_particle (heap st)) (particles_ st)).
  { unfold maxParticleVelocityNorm.
    destruct (particles_ st) as [|p ps] eqn:Hps.
    - split; [constructor|by eexists].
    - rewrite <- (min_vel_loop_returns (heap st) (p :: ps) s_max). split.
      + intros [r Hr]. apply bind_Ret in Hr as (m & Hm & _). by exists m.
      + intros [m Hm]. rewrite Hm. by eexists. }
  split; [done|]. split.
  - intros Hnot. rewrite <- Hiff in Hnot. unfold returns in Hnot.
    unfold maxParticleVelocityNorm in *.
    destruct (particles_ st) as [|p ps]; [exfalso; eauto|].
    assert (Hdef : ∀ ps' m, ¬ returns (min_vel_loop (heap st) ps' m) →
              min_vel_loop (heap st) ps' m = Undefined).
    { induction ps' as [|p' ps' IH]; intros m Hm; simpl in *.
      - exfalso. apply Hm. by eexists.
      - destruct (deref (heap st) p') as [v| | |] eqn:Hv; simpl in *; try done.
        + by apply IH.
        + destruct p' as [l|]; [|discriminate]. simpl in Hv.
          destruct (heap st !! l); discriminate.
        + destruct p' as [l|]; [|discriminate]. simpl in Hv.
          destruct (heap st !! l); discriminate. }
    rewrite Hdef; [done|]. intros [m Hm]. apply Hnot. rewrite Hm. by eexists.
  - unfold particleNum, maxParticleVelocityNorm. intros r Hne.
    destruct (particles_ st) as [|p ps] eqn:Hps; [done|].
    intros (m & Hm & [= <-])%bind_Ret.
    apply min_vel_loop_range in Hm as [->|(l & v & Hin & Hl & ->)]; [by left|].
    right. by exists l, v.
Qed.

(** *** Further properties: references across [addParticle] *)

(** X13.  [addParticle] does not invalidate what the container held: in a
    well-formed container, after [addParticle(p)] every index
    below the old count gives, through both overloads of [particle], the
    reference it gave before, to an object that is unchanged, and its
    boundary flag, initial volume, cache slot and counter are unchanged
    too. *)
Theorem addParticle_keeps_references st (particle_arg : loc) st' (i : nat) :
  well_formed st →
  addParticle Dim particle_arg st = Ret st' →
  i < particleNum st →
  particle i st' = particle i st ∧
  particle_const i st' = particle_const i st ∧
  (∀ l, particle i st = Ret l → heap st' !! l = heap st !! l) ∧
  is_bc_particle_ st' !! i = is_bc_particle_ st !! i ∧
  particle_initial_volume_ st' !! i = particle_initial_volume_ st !! i ∧
  particle_grid_weight_and_gradient_ st' !! i
    = particle_grid_weight_and_gradient_ st !! i ∧
  particle_grid_pair_num_ st' !! i = particle_grid_pair_num_ st !! i.
Proof.
  intros [(Hb & Hv & Hw & Hn) [Hlive _]] Hadd Hi. unfold particleNum in Hi.
  destruct (addParticle_inv _ _ _ Hadd) as (v & w & Hp & Hk).
  rewrite (addParticle_Ret _ _ _ _ Hp Hk) in Hadd. injection Hadd as <-.
  pose proof (fresh_not_live (heap st)) as Hfresh.
  destruct (lookup_lt_is_Some_2 _ _ Hi) as [p Hslot].
  assert (Hslot' : (particles_ st ++ [Some (fresh (dom (heap st)))]) !! i = Some p).
  { by rewrite lookup_app_l. }
  destruct (particle_unfold st i p Hslot) as [-> ->].
  match goal with |- particle _ ?s = _ ∧ _ =>
    destruct (particle_unfold s i p Hslot') as [-> ->] end.
  simpl.
  assert (Hsame : ∀ l, p = Some l →
            <[fresh (dom (heap st)):=v]> (heap st) !! l = heap st !! l).
  { intros l ->. apply lookup_insert_ne. intros Heq.
    rewrite Forall_lookup in Hlive. pose proof (Hlive _ _ Hslot) as Hl.
    unfold live in Hl. rewrite <- Heq, Hfresh in Hl. by destruct Hl. }
  assert (Hderef : deref (<[fresh (dom (heap st)):=v]> (heap st)) p = deref (heap st) p).
  { destruct p as [l|]; [|done]. simpl. by rewrite Hsame. }
  rewrite Hderef. split_and!; try done; try (apply lookup_app_l; lia).
  intros l Hl. destruct p as [l'|]; [|discriminate]. simpl in Hl.
  destruct (heap st !! l'); [|discriminate]. simpl in Hl. injection Hl as ->.
  by apply Hsame.
Qed.

(** *** Further properties: a NULL entry over a stored particle *)

Lemma setParticles_loop_new_address (rest : list (option loc)) (i : nat) st st' l :
  setParticles_loop i rest st = Ret st' →
  heap st !! l = None →
  is_Some (heap st' !! l) →
  ∃ j, written i rest j ∧ particles_ st' !! j = Some (Some l).
Proof.
  revert i st. induction rest as [|[q|] rest IH]; intros i st Hloop Hfree Hl; simpl in *.
  - injection Hloop as <-. rewrite Hfree in Hl. by destruct Hl.
  - apply bind_Ret in Hloop as ((l0 & h1) & Hclone & Hrest).
    apply bind_Ret in Hrest as (ps & (Hips & ->)%vector_set_Ret & Hrest).
    apply bind_Ret in Hrest as (bcs & (Hibc & ->)%vector_set_Ret & Hrest).
    apply bind_Ret in Hrest as (v0 & Hv0 & Hrest).
    apply bind_Ret in Hrest as (vols & (Hivol & ->)%vector_set_Ret & Hrest).
    unfold clone in Hclone. destruct (heap st !! q) as [vq|] eqn:Hq; [|discriminate].
    injection Hclone as <- <-.
    destruct (decide (l = fresh (dom (heap st)))) as [->|Hne].
    + exists i. split; [apply written_here|].
      apply setParticles_loop_frame in Hrest as (_ & _ & _ & _ & _ & _ & _ & _ & Hframe).
      destruct (Hframe i) as (-> & _); [intros [? _]; lia|].
      simpl. by apply list_lookup_insert_eq.
    + destruct (IH _ _ Hrest) as (j & Hj & Hslot); [|done|].
      * simpl. by rewrite lookup_insert_ne.
      * exists j. split; [by apply written_further|done].
  - destruct (IH _ _ Hloop Hfree Hl) as (j & Hj & Hslot).
    exists j. split; [by apply written_further|done].
Qed.

(** X14.  When the argument of [setParticles] holds NULL at an index
    whose slot holds a particle, the call (on a container that owns its
    particles, with the kernel set and live arguments of the caller)
    returns a container that no longer owns its particles: the slot keeps
    the address of the object the call released.  The destructor of that
    container deletes an object that is not live. *)
Theorem setParticles_null_over_particle st (particles : list (option loc))
    (i : nat) l :
  owns st →
  is_Some (weight_function_ st) →
  (∀ q, Some q ∈ particles → is_Some (heap st !! q) ∧ Some q ∉ particles_ st) →
  particles !! i = Some None →
  particles_ st !! i = Some (Some l) →
  ∃ st',
    setParticles Dim particles st = Ret st' ∧
    particles_ st' !! i = Some (Some l) ∧
    ¬ owns st' ∧
    ¬ returns (destroy st').
Proof.
  intros Howns Hk Hin Hnull Hslot.
  destruct (setParticles_returns particles st Howns Hk Hin) as [st' Hst'].
  exists st'. split; [done|].
  destruct (setParticles_inv _ _ _ Hst') as (h & w & Hrel & _ & Hloop).
  pose proof (setParticles_loop_frame _ _ _ _ Hloop)
    as (_ & _ & _ & _ & _ & _ & _ & _ & Hframe).
  pose proof (lookup_lt_Some _ _ _ Hnull) as Hi.
  pose proof (lookup_lt_Some _ _ _ Hslot) as Hi'.
  assert (Hkept : particles_ st' !! i = Some (Some l)).
  { destruct (Hframe i) as (-> & _).
    - intros [_ [q Hq]]. rewrite Nat.sub_0_r in Hq. congruence.
    - simpl. by rewrite vector_resize_lookup_old. }
  assert (Hgone : h !! l = None).
  { apply (proj1 (release_inv _ _ _ Hrel)). by eapply list_elem_of_lookup_2. }
  assert (Hnot : ¬ owns st').
  { intros [Hlive Hnd].
    rewrite Forall_lookup in Hlive. pose proof (Hlive _ _ Hkept) as Hl.
    unfold live in Hl.
    destruct (setParticles_loop_new_address _ _ _ _ l Hloop Hgone Hl)
      as (j & [_ [q Hq]] & Hj).
    rewrite Nat.sub_0_r in Hq.
    pose proof (owns_slot_inj _ _ _ _ Hnd Hkept Hj) as ->. congruence. }
  split; [done|]. split; [done|].
  intros [h' Hh']. apply Hnot. unfold destroy in Hh'. by apply release_owns in Hh'.
Qed.

(** *** Further properties: the empty argument *)

(** X15.  [setParticles] with an empty list clears the container: on a
    container that owns its particles, with the kernel set, it returns an
    empty container whose store is the one the destructor would have
    left; std::cerr and the kernel are as they were. *)
Theorem setParticles_empty_clears st :
  owns st →
  is_Some (weight_function_ st) →
  ∃ st',
    setParticles Dim [] st = Ret st' ∧
    empty_container st' ∧
    destroy st = Ret (heap st') ∧
    cerr st' = cerr st ∧
    weight_function_ st' = weight_function_ st.
Proof.
  intros [Hlive Hnd] [w Hk].
  destruct (release_Ret _ _ Hlive Hnd) as (h & Hh & _).
  unfold setParticles, destroy. rewrite Hh. simpl.
  unfold allocateSpaceForWeightAndGradient. simpl. rewrite Hk. simpl.
  eexists. split; [done|]. by repeat split.
Qed.

End Properties.

(** ** Witnesses and counterexamples *)

(** *** The scenario states are reached by the member functions *)

Lemma one_particle_reached :
  addParticle Scenario.Dim 1%positive
    (Scenario.new_container (Some Scenario.linear_kernel) Scenario.caller_store)
  = Ret Scenario.one_particle.
Proof. vm_compute. reflexivity. Qed.

Lemma two_particles_reached :
  run Scenario.Dim [Add 1%positive; Add 2%positive]
    (Scenario.new_container (Some Scenario.linear_kernel) Scenario.caller_store)
  = Ret Scenario.two_particles.
Proof. vm_compute. reflexivity. Qed.

Lemma marked_before_reached :
  addBCParticle 0 Scenario.two_particles = Ret Scenario.marked_before.
Proof. vm_compute. reflexivity. Qed.

Lemma hole_container_reached :
  setParticles Scenario.Dim [None]
    (Scenario.new_container (Some Scenario.linear_kernel) Scenario.caller_store)
  = Ret Scenario.hole_container.
Proof. vm_compute. reflexivity. Qed.

Lemma fast_container_reached :
  addParticle Scenario.Dim 1%positive
    (Scenario.new_container (Some Scenario.linear_kernel) {[1%positive := Scenario.p_fast]})
  = Ret Scenario.fast_container.
Proof. vm_compute. reflexivity. Qed.

Lemma two_particles_well_formed : well_formed Scenario.two_particles.
Proof.
  split; [repeat split|split].
  - repeat constructor; eexists; reflexivity.
  - apply (bool_decide_unpack _). vm_compute. exact I.
Qed.

(** *** Insertions and removals from an empty container *)

Lemma parallel_sequences_invariant_witness :
  ∃ st,
    run Scenario.Dim [Add 1%positive; Add 2%positive; RemoveAt 0; RemoveAt 7; Add 1%positive]
      (Scenario.new_container (Some Scenario.linear_kernel) Scenario.caller_store) = Ret st ∧
    aligned st ∧ length (entries st) = particleNum st.
Proof.
  eexists. split; [vm_compute; reflexivity|].
  match goal with |- aligned ?s ∧ _ =>
    destruct (parallel_sequences_invariant Scenario.Dim
                [Add 1%positive; Add 2%positive; RemoveAt 0; RemoveAt 7; Add 1%positive]
                (Scenario.new_container (Some Scenario.linear_kernel) Scenario.caller_store)
                s) as (H1 & H2 & _)
  end.
  - repeat split.
  - vm_compute. reflexivity.
  - split; [exact H1|exact H2].
Defined.

(** *** Cache slots after [setParticles] *)

(** C2, evaluated.  A container holds one particle inserted under a kernel
    of support radius 1 (a slot of 9 entries, 5 of them valid since the
    last step); the kernel now has support radius 2, for which a slot
    needs 25 entries.  After [setParticles] with a one-element list the
    slot at index 0 still has 9 entries and its counter is still 5. *)
Theorem setParticles_stale_cache :
  ∃ st',
    setParticles Scenario.Dim [Some 1%positive] Scenario.stale_cache = Ret st' ∧
    weight_function_ st' = Some Scenario.cubic_kernel ∧
    max_num_of Scenario.Dim (supportRadius Scenario.cubic_kernel) = 25%N ∧
    length <$> particle_grid_weight_and_gradient_ st' = [9] ∧
    particle_grid_pair_num_ st' = [5%N].
Proof.
  eexists. split; [vm_compute; reflexivity|]. repeat split.
Qed.

(** *** A NULL entry in [setParticles] *)

(** C3, evaluated.  A container holds one particle (its clone lives at
    address 3).  After [setParticles] with the list [NULL, p_c] the count
    is 2, the warning for index 0 was written, slot 1 holds a clone of
    [p_c]; but slot 0 is not NULL: it still holds address 3, which the
    call released.  Reading it, or destroying the container, is then
    undefined. *)
Theorem setParticles_dangling_slot :
  ∃ st',
    setParticles Scenario.Dim [None; Some 4%positive] Scenario.one_particle_later = Ret st' ∧
    particleNum st' = 2 ∧
    cerr st' = [warn_null 0] ∧
    particles_ st' !! 1 = Some (Some 5%positive) ∧
    heap st' !! 5%positive = Some Scenario.p_c ∧
    particles_ st' !! 0 = Some (Some 3%positive) ∧
    particles_ Scenario.one_particle_later !! 0 = Some (Some 3%positive) ∧
    heap st' !! 3%positive = None ∧
    particle 0 st' = Undefined ∧
    destroy st' = Undefined.
Proof.
  eexists. split; [vm_compute; reflexivity|]. repeat split.
Qed.

(** On a new container the same call leaves slot 0 NULL: [resize] creates
    it. *)
Lemma setParticles_on_new_container :
  ∃ st',
    setParticles Scenario.Dim [None; Some 2%positive]
      (Scenario.new_container (Some Scenario.linear_kernel) Scenario.caller_store) = Ret st' ∧
    particleNum st' = 2 ∧
    cerr st' = [warn_null 0] ∧
    particles_ st' = [None; Some 3%positive] ∧
    heap st' !! 3%positive = Some Scenario.p_b.
Proof.
  eexists. split; [vm_compute; reflexivity|]. repeat split.
Qed.

(** *** [addParticle] *)

Lemma addParticle_appends_witness :
  ∃ st' l slot,
    addParticle Scenario.Dim 1%positive Scenario.one_particle = Ret st' ∧
    particleNum st' = 2 ∧
    particles_ st' = particles_ Scenario.one_particle ++ [Some l] ∧
    length slot = 9 ∧
    particle_grid_weight_and_gradient_ st' =
      particle_grid_weight_and_gradient_ Scenario.one_particle ++ [slot] ∧
    heap st' !! l = Some Scenario.p_a ∧ l ≠ 1%positive.
Proof.
  destruct (addParticle_appends Scenario.Dim Scenario.one_particle 1%positive
              Scenario.p_a Scenario.linear_kernel)
    as (st' & l & slot & H1 & H2 & H3 & _ & _ & H6 & _ & H8 & _ & _ & H11 & H12 & _).
  - reflexivity.
  - reflexivity.
  - reflexivity.
  - exists st', l, slot. repeat split; assumption.
Defined.

(** The claim C4 as stated fails: in a container whose kernel pointer is
    NULL, [addParticle] dereferences it and does not return. *)
Lemma addParticle_needs_kernel :
  addParticle Scenario.Dim 1%positive (Scenario.new_container None Scenario.caller_store)
    = Undefined ∧
  ¬ returns (addParticle Scenario.Dim 1%positive
               (Scenario.new_container None Scenario.caller_store)).
Proof.
  split; [reflexivity|]. intros [st' Hst']. vm_compute in Hst'. discriminate.
Qed.

(** In [unsigned int] the slot size wraps: for support radius 40000 in
    dimension 2 it is not [80001^2]. *)
Lemma max_num_of_wraps :
  max_num_of 2 40000 = 2105192705%N ∧ ((2 * 40000 + 1) ^ 2 = 6400160001)%N.
Proof. split; vm_compute; reflexivity. Qed.

(** The sizes of the spec's table: radius 1, 2, 3 in dimension 2 and 3. *)
Lemma max_num_of_table :
  max_num_of 2 1 = 9%N ∧ max_num_of 2 2 = 25%N ∧ max_num_of 2 3 = 49%N ∧
  max_num_of 3 1 = 27%N ∧ max_num_of 3 2 = 125%N ∧ max_num_of 3 3 = 343%N.
Proof. repeat split; vm_compute; reflexivity. Qed.

(** *** [removeParticle] on a valid index *)



(** *** [removeParticle] on an index past the end *)

Lemma removeParticle_out_of_range_witness :
  particleNum Scenario.two_particles ≤ 3 ∧
  ∃ st', removeParticle 3 Scenario.two_particles = Ret st' ∧
    particleNum st' = 2 ∧
    cerr st' = [warn_out_of_range].
Proof.
  split; [vm_compute; lia|].
  destruct (removeParticle_out_of_range Scenario.two_particles 3)
    as (st' & H1 & H2 & _ & _ & _ & _ & _ & _ & _ & H10).
  - vm_compute; lia.
  - exists st'. split; [exact H1|]. split; [exact H2|exact H10].
Defined.

(** *** The read accessor *)

Lemma particle_checks_index_witness :
  (particle 0 Scenario.one_particle = Ret 3%positive ∧
   particle_const 0 Scenario.one_particle = Ret 3%positive) ∧
  returns (particle_const 1 Scenario.two_particles) ∧
  ¬ returns (particle 1 Scenario.one_particle).
Proof.
  split; [|split].
  - apply (proj1 (particle_checks_index Scenario.one_particle 0) 3%positive).
    + vm_compute; lia.
    + reflexivity.
    + exists Scenario.p_a. reflexivity.
  - apply (proj1 (proj2 (particle_checks_index Scenario.two_particles 1))).
    + vm_compute; lia.
    + exists 4%positive. split; [reflexivity|]. exists Scenario.p_b. reflexivity.
  - apply (proj2 (proj2 (particle_checks_index Scenario.one_particle 1))).
    vm_compute; lia.
Defined.

(** The claim C7 as stated fails: [setParticles] with the one-element
    list [NULL] on a new container returns and leaves a container of one
    slot, which is NULL.  Index 0 is then below [particleNum()], but
    neither overload of [particle] returns a reference: both dereference
    the null pointer. *)
Lemma particle_null_slot :
  setParticles Scenario.Dim [None]
    (Scenario.new_container (Some Scenario.linear_kernel) Scenario.caller_store)
  = Ret Scenario.hole_container ∧
  0 < particleNum Scenario.hole_container ∧
  particles_ Scenario.hole_container !! 0 = Some None ∧
  particle 0 Scenario.hole_container = Undefined ∧
  particle_const 0 Scenario.hole_container = Undefined ∧
  ¬ returns (particle 0 Scenario.hole_container) ∧
  ¬ returns (particle_const 0 Scenario.hole_container).
Proof.
  split; [vm_compute; reflexivity|]. split; [vm_compute; lia|].
  repeat split; intros [? ?]; discriminate.
Qed.

(** *** [maxParticleVelocityNorm] *)



(** Not every speed is exact.  A single live particle of speed [2^-600]
    has a computed squared speed of 0 (the square underflows), an ordinary
    number not above [numeric_limits<double>::max()]; the call returns 0,
    the square root of the computed squared speed, not the particle's
    speed. *)
Lemma maxParticleVelocityNorm_underflow :
  addParticle Scenario.Dim 1%positive
    (Scenario.new_container (Some Scenario.linear_kernel) {[1%positive := Scenario.p_slow]})
  = Ret Scenario.slow_container ∧
  particleNum Scenario.slow_container = 1 ∧
  velocity Scenario.p_slow = [0x1p-600%float; 0%float] ∧
  normSquared (velocity Scenario.p_slow) = 0%float ∧
  bounded_by_max [normSquared (velocity Scenario.p_slow)] ∧
  maxParticleVelocityNorm Scenario.slow_container = Ret 0%float ∧
  maxParticleVelocityNorm Scenario.slow_container ≠ Ret 0x1p-600%float ∧
  ¬ exact_speed (velocity Scenario.p_slow) 0x1p-600%float.
Proof.
  split; [vm_compute; reflexivity|]. split; [reflexivity|]. split; [reflexivity|].
  split; [vm_compute; reflexivity|]. split.
  { intros a Ha. apply list_elem_of_singleton in Ha as ->. left. reflexivity. }
  split; [vm_compute; reflexivity|]. split.
  - intros H.
    apply (f_equal (λ r, match r with
                         | Ret x => PrimFloat.ltb 0%float x
                         | _ => false
                         end)) in H.
    vm_compute in H. discriminate H.
  - intros [_ H]. apply (f_equal (PrimFloat.ltb 0%float)) in H.
    vm_compute in H. discriminate H.
Qed.

(** A slot left NULL by [setParticles] makes [maxParticleVelocityNorm]
    read through a null pointer. *)
Lemma maxParticleVelocityNorm_hole :
  particleNum Scenario.hole_container = 1 ∧
  maxParticleVelocityNorm Scenario.hole_container = Undefined.
Proof. split; reflexivity. Qed.

(** *** Boundary marks *)

Lemma boundary_marks_union_witness :
  ∃ st1 st2,
    addBCParticle_each [1; 9] Scenario.marked_before = Ret st1 ∧
    addBCParticles [1; 5] st1 = Ret st2 ∧
    is_bc_particle_ st2 !! 1 = Some 1%N ∧
    is_bc_particle_ st2 !! 0 = is_bc_particle_ Scenario.marked_before !! 0 ∧
    cerr st2 = [warn_out_of_range; warn_out_of_range].
Proof.
  destruct (boundary_marks_union Scenario.marked_before [1; 9] [1; 5])
    as (st1 & st2 & H1 & H2 & H3 & H4 & _ & _ & H7 & _).
  - reflexivity.
  - exists st1, st2. split; [exact H1|]. split; [exact H2|]. split; [|split].
    + apply H3; [vm_compute; lia|]. apply elem_of_app. left. apply list_elem_of_here.
    + apply H4. intros [_ Hin].
      rewrite elem_of_app, !elem_of_cons, !elem_of_nil in Hin. lia.
    + exact (eq_trans H7 eq_refl).
Defined.

(** The claim C9 as stated fails: in a container where index 0 was marked
    before, marking index 1 once and then the batch [1; 5] leaves the flag
    set at index 0, which is not among the marked indices. *)
Lemma boundary_marks_not_exact :
  ∃ st1 st2,
    addBCParticle_each [1] Scenario.marked_before = Ret st1 ∧
    addBCParticles [1; 5] st1 = Ret st2 ∧
    is_bc_particle_ st2 = [1%N; 1%N] ∧
    ¬ marked_exactly (is_bc_particle_ st2) (particleNum st2) ([1] ++ [1; 5]).
Proof.
  eexists _, _. split; [vm_compute; reflexivity|]. split; [vm_compute; reflexivity|].
  split; [reflexivity|].
  intros Hexact. destruct (Hexact 0) as [Hin _]; [vm_compute; lia|].
  specialize (Hin eq_refl).
  rewrite elem_of_app, !elem_of_cons, !elem_of_nil in Hin. lia.
Qed.

(** *** Flags and volumes at a NULL entry *)

Lemma setParticles_null_slot_keeps_witness :
  ∃ st', setParticles Scenario.Dim [None; Some 2%positive] Scenario.marked_before = Ret st' ∧
    is_bc_particle_ st' !! 0 = Some 1%N ∧
    particle_initial_volume_ st' !! 0 = Some 0.5%float.
Proof.
  destruct (setParticles_null_slot_keeps Scenario.Dim Scenario.marked_before
              [None; Some 2%positive] 0) as [Hkeep Hret].
  - repeat split.
  - vm_compute; lia.
  - reflexivity.
  - destruct Hret as [st' Hst'].
    + destruct two_particles_well_formed as [_ Howns]. exact Howns.
    + eexists; reflexivity.
    + intros q Hq. rewrite !elem_of_cons, elem_of_nil in Hq.
      destruct Hq as [Hq|[Hq|[]]]; [discriminate|]. injection Hq as ->.
      split; [eexists; reflexivity|]. intros Hin. simpl in Hin.
      rewrite !elem_of_cons, elem_of_nil in Hin.
      destruct Hin as [Hin|[Hin|[]]]; discriminate.
    + exists st'. split; [exact Hst'|]. destruct (Hkeep st' Hst') as [-> ->].
      split; reflexivity.
Defined.

(** ** Witnesses of the further properties *)

Lemma one_particle_well_formed : well_formed Scenario.one_particle.
Proof.
  split; [repeat split|split].
  - repeat constructor; eexists; reflexivity.
  - apply (bool_decide_unpack _). vm_compute. exact I.
Qed.

Lemma one_particle_later_owns : owns Scenario.one_particle_later.
Proof.
  split.
  - repeat constructor; eexists; reflexivity.
  - apply (bool_decide_unpack _). vm_compute. exact I.
Qed.

Lemma addParticle_then_removeParticle_witness :
  (st' ← addParticle Scenario.Dim 1%positive Scenario.one_particle;
   removeParticle (particleNum Scenario.one_particle) st') = Ret Scenario.one_particle.
Proof.
  apply (addParticle_then_removeParticle Scenario.Dim Scenario.one_particle 1%positive).
  - repeat split.
  - eexists; reflexivity.
  - eexists; reflexivity.
Defined.

Lemma removeParticle_releases_slot_witness :
  ∃ st', removeParticle 0 Scenario.two_particles = Ret st' ∧
    heap st' = delete 3%positive (heap Scenario.two_particles) ∧
    well_formed st'.
Proof.
  destruct (removeParticle_releases_slot Scenario.two_particles 0)
    as (st' & p & H1 & H2 & H3 & _ & H5 & _).
  - exact two_particles_well_formed.
  - vm_compute; lia.
  - exists st'. split; [exact H1|]. split; [|exact H5].
    assert (p = Some 3%positive) as -> by (vm_compute in H2; congruence).
    exact H3.
Defined.

Lemma run_then_destroy_restores_store_witness :
  ∃ st,
    run Scenario.Dim [Add 1%positive; Add 2%positive; RemoveAt 0]
      (Scenario.new_container (Some Scenario.linear_kernel) Scenario.caller_store) = Ret st ∧
    particleNum st = 1 ∧
    destroy st = Ret Scenario.caller_store.
Proof.
  eexists. split; [vm_compute; reflexivity|]. split; [reflexivity|].
  match goal with |- destroy ?s = _ =>
    apply (run_then_destroy_restores_store Scenario.Dim
             [Add 1%positive; Add 2%positive; RemoveAt 0]
             (Scenario.new_container (Some Scenario.linear_kernel) Scenario.caller_store) s)
  end.
  - repeat split.
  - vm_compute. reflexivity.
Defined.

Lemma setParticles_inputs_of_caller (particles : list (option loc)) :
  Forall (λ p, p = None ∨ p = Some 1%positive ∨ p = Some 2%positive) particles →
  ∀ q, Some q ∈ particles →
    is_Some (heap Scenario.two_particles !! q) ∧ Some q ∉ particles_ Scenario.two_particles.
Proof.
  intros Hall q Hq. rewrite Forall_forall in Hall.
  destruct (Hall _ Hq) as [?|[[= ->]|[= ->]]]; [discriminate| |];
    (split; [eexists; reflexivity|]); intros Hin; simpl in Hin;
    rewrite !elem_of_cons, elem_of_nil in Hin; destruct Hin as [?|[?|[]]]; discriminate.
Qed.

Lemma setParticles_replaces_all_witness :
  ∃ st', setParticles Scenario.Dim [None; Some 2%positive] Scenario.two_particles = Ret st' ∧
    particleNum st' = 2 ∧
    aligned st' ∧
    cerr st' = [warn_null 0].
Proof.
  destruct (setParticles_replaces_all Scenario.Dim Scenario.two_particles
              [None; Some 2%positive]) as (st' & H1 & H2 & H3 & H4 & _).
  - exact (proj2 two_particles_well_formed).
  - eexists; reflexivity.
  - apply setParticles_inputs_of_caller.
    apply Forall_cons; split; [by left|].
    apply Forall_cons; split; [by right; right|]. apply Forall_nil_2.
  - exists st'. split; [exact H1|]. split; [exact H2|]. split; [exact H3|exact H4].
Defined.

Lemma setParticles_well_formed_witness :
  ∃ st', setParticles Scenario.Dim [Some 1%positive; Some 2%positive; None]
           Scenario.two_particles = Ret st' ∧
    well_formed st' ∧
    particles_ st' !! 2 = Some None.
Proof.
  destruct (setParticles_well_formed Scenario.Dim Scenario.two_particles
              [Some 1%positive; Some 2%positive; None]) as (st' & H1 & H2 & H3).
  - exact (proj2 two_particles_well_formed).
  - eexists; reflexivity.
  - apply setParticles_inputs_of_caller.
    apply Forall_cons; split; [by right; left|].
    apply Forall_cons; split; [by right; right|].
    apply Forall_cons; split; [by left|]. apply Forall_nil_2.
  - intros [|[|j]] Hj Hnull; [discriminate|discriminate|]. vm_compute in Hj. lia.
  - exists st'. split; [exact H1|]. split; [exact H2|]. by apply H3.
Defined.

Lemma MPMSolidBase_from_particles_well_formed_witness :
  ∃ st',
    MPMSolidBase_from_particles Scenario.Dim [Some 1%positive; Some 2%positive]
      (Scenario.new_container (Some Scenario.linear_kernel) Scenario.caller_store) = Ret st' ∧
    particleNum st' = 2 ∧
    well_formed st' ∧
    returns (maxParticleVelocityNorm st').
Proof.
  destruct (MPMSolidBase_from_particles_well_formed Scenario.Dim
              [Some 1%positive; Some 2%positive]
              (Scenario.new_container (Some Scenario.linear_kernel) Scenario.caller_store))
    as (st' & H1 & H2 & H3 & H4).
  - repeat split.
  - eexists; reflexivity.
  - intros q Hq. rewrite !elem_of_cons, elem_of_nil in Hq.
    destruct Hq as [[= ->]|[[= ->]|[]]]; eexists; reflexivity.
  - exists st'. split; [exact H1|]. split; [exact H2|]. split; [exact H3|].
    apply H4. intros Hin. rewrite !elem_of_cons, elem_of_nil in Hin.
    destruct Hin as [?|[?|[]]]; discriminate.
Defined.

Lemma kernel_required_witness :
  ¬ returns (addParticle Scenario.Dim 1%positive
               (Scenario.new_container None Scenario.caller_store)) ∧
  setParticles Scenario.Dim [Some 1%positive]
    (Scenario.new_container None Scenario.caller_store) = AssertFailed.
Proof.
  destruct (kernel_required Scenario.Dim (Scenario.new_container None Scenario.caller_store)
              1%positive [Some 1%positive]) as (H1 & _ & _ & H4).
  - reflexivity.
  - split; [exact H1|]. apply H4. split; constructor.
Defined.

Ltac owns_by_evaluation :=
  split;
  [ repeat constructor; try (eexists; reflexivity)
  | apply (bool_decide_unpack _); vm_compute; exact I ].

Lemma run_in_contract_cons {Scalar : Type} `{!ScalarOps Scalar} (n : nat)
    (c : call) (cs : list call) (st st' : @State Scalar) :
  call_in_contract c st → apply_call n c st = Ret st' →
  run_in_contract n cs st' → run_in_contract n (c :: cs) st.
Proof. intros Hc Hst' Hcs. simpl. by rewrite Hst'. Qed.

Lemma run_calls_cache_ready_witness :
  ∃ st,
    run_calls Scenario.Dim
      [CallAddParticle 1%positive; CallSetParticles [Some 2%positive; None];
       CallAddBCParticle 1; CallRemoveParticle 1]
      (Scenario.new_container (Some Scenario.linear_kernel) Scenario.caller_store) = Ret st ∧
    aligned st ∧
    cache_ready Scenario.Dim Scenario.linear_kernel st.
Proof.
  destruct (run_calls_cache_ready Scenario.Dim
              [CallAddParticle 1%positive; CallSetParticles [Some 2%positive; None];
               CallAddBCParticle 1; CallRemoveParticle 1]
              Scenario.linear_kernel
              (Scenario.new_container (Some Scenario.linear_kernel) Scenario.caller_store))
    as (st & H1 & H2 & H3 & _).
  - repeat split.
  - reflexivity.
  - eapply run_in_contract_cons; [| vm_compute; reflexivity |].
    { split; [owns_by_evaluation|eexists; reflexivity]. }
    eapply run_in_contract_cons; [| vm_compute; reflexivity |].
    { split; [owns_by_evaluation|].
      intros q Hq. rewrite !elem_of_cons, elem_of_nil in Hq.
      destruct Hq as [[= ->]|[?|[]]]; [|discriminate].
      split; [eexists; reflexivity|]. intros Hin. simpl in Hin.
      rewrite !elem_of_cons, elem_of_nil in Hin. destruct Hin as [?|[]]; discriminate. }
    eapply run_in_contract_cons; [| vm_compute; reflexivity |].
    { split; [owns_by_evaluation|exact I]. }
    eapply run_in_contract_cons; [| vm_compute; reflexivity |].
    { split; [owns_by_evaluation|exact I]. }
    exact I.
  - exists st. split; [exact H1|]. split; [exact H2|exact H3].
Defined.

Lemma addBCParticles_order_irrelevant_witness :
  addBCParticles [1; 0; 5] Scenario.two_particles
  = addBCParticles [0; 1; 5] Scenario.two_particles.
Proof.
  apply (addBCParticles_order_irrelevant Scenario.two_particles [1; 0; 5] [0; 1; 5]).
  - reflexivity.
  - apply perm_swap.
Defined.

Lemma addParticle_keeps_references_witness :
  particle 0 Scenario.two_particles = particle 0 Scenario.one_particle ∧
  is_bc_particle_ Scenario.two_particles !! 0 = is_bc_particle_ Scenario.one_particle !! 0.
Proof.
  destruct (addParticle_keeps_references Scenario.Dim Scenario.one_particle 2%positive
              Scenario.two_particles 0) as (H1 & _ & _ & H4 & _).
  - exact one_particle_well_formed.
  - vm_compute. reflexivity.
  - vm_compute; lia.
  - split; [exact H1|exact H4].
Defined.

Lemma setParticles_null_over_particle_witness :
  ∃ st',
    setParticles Scenario.Dim [None; Some 4%positive] Scenario.one_particle_later = Ret st' ∧
    particles_ st' !! 0 = Some (Some 3%positive) ∧
    ¬ returns (destroy st').
Proof.
  destruct (setParticles_null_over_particle Scenario.Dim Scenario.one_particle_later
              [None; Some 4%positive] 0 3%positive) as (st' & H1 & H2 & _ & H4).
  - exact one_particle_later_owns.
  - eexists; reflexivity.
  - intros q Hq. rewrite !elem_of_cons, elem_of_nil in Hq.
    destruct Hq as [?|[[= ->]|[]]]; [discriminate|].
    split; [eexists; reflexivity|]. intros Hin. simpl in Hin.
    rewrite !elem_of_cons, elem_of_nil in Hin. destruct Hin as [?|[]]; discriminate.
  - reflexivity.
  - reflexivity.
  - exists st'. split; [exact H1|]. split; [exact H2|exact H4].
Defined.

Lemma setParticles_empty_clears_witness :
  ∃ st', setParticles Scenario.Dim [] Scenario.two_particles = Ret st' ∧
    empty_container st' ∧
    heap st' = Scenario.caller_store.
Proof.
  destruct (setParticles_empty_clears Scenario.Dim Scenario.two_particles)
    as (st' & H1 & H2 & H3 & _).
  - exact (proj2 two_particles_well_formed).
  - eexists; reflexivity.
  - exists st'. split; [exact H1|]. split; [exact H2|].
    vm_compute in H3. by injection H3.
Defined.
